(** * check_gemini_keys: a shallow embedding of [check_gemini_keys.py]

    The script reads API keys (one per line), probes each of them with one
    small [generate_content] request in a thread pool, collects the keys
    whose probe succeeded and prints them as a plain list or a JSON array.

    Python values are modelled as follows.
    - [str] is a list of Unicode code points ([N]), so that slicing
      ([key[:8]]) and [str.strip] act on characters as they do in Python.
    - A raised exception is a value of [exc]: the name of its type, the
      answers of [isinstance] for the classes the script names in its
      [except] clauses, and its [code] attribute.
    - A call that may raise returns a [py_result].
    - The remote service, the file system and the order in which futures
      complete are parameters of the functions that use them. *)

From Stdlib Require Import List ZArith NArith Lia Bool String Ascii.
From Stdlib Require Import Permutation DecimalString.
Import ListNotations.

Local Open Scope N_scope.

(** ** Python strings *)

Definition str := list N.

(** UTF-8 decoding of a source literal into code points. *)
Fixpoint utf8 (bs : list N) : str :=
  match bs with
  | [] => []
  | b :: r =>
    if b <? 0x80 then b :: utf8 r
    else if b <? 0xE0 then
      match r with
      | c1 :: r1 => ((b - 0xC0) * 64 + (c1 - 0x80)) :: utf8 r1
      | _ => []
      end
    else if b <? 0xF0 then
      match r with
      | c1 :: c2 :: r2 =>
        ((b - 0xE0) * 4096 + (c1 - 0x80) * 64 + (c2 - 0x80)) :: utf8 r2
      | _ => []
      end
    else
      match r with
      | c1 :: c2 :: c3 :: r3 =>
        ((b - 0xF0) * 262144 + (c1 - 0x80) * 4096 + (c2 - 0x80) * 64
         + (c3 - 0x80)) :: utf8 r3
      | _ => []
      end
  end.

Definition u (lit : string) : str :=
  utf8 (map N_of_ascii (list_ascii_of_string lit)).

(** [bool(s)] for a string. *)
Definition truthy (s : str) : bool :=
  match s with [] => false | _ :: _ => true end.

(** [str.isspace] on one character: the code points Python treats as
    whitespace. *)
Definition isspace (c : N) : bool :=
  ((0x09 <=? c) && (c <=? 0x0D)) || ((0x1C <=? c) && (c <=? 0x20))
  || (c =? 0x85) || (c =? 0xA0) || (c =? 0x1680)
  || ((0x2000 <=? c) && (c <=? 0x200A))
  || (c =? 0x2028) || (c =? 0x2029) || (c =? 0x202F) || (c =? 0x205F)
  || (c =? 0x3000).

Fixpoint lstrip (s : str) : str :=
  match s with
  | c :: r => if isspace c then lstrip r else s
  | [] => []
  end.

Definition rstrip (s : str) : str := rev (lstrip (rev s)).

(** [s.strip()] *)
Definition strip (s : str) : str := rstrip (lstrip s).

(** [str(n)] for an integer. *)
Definition str_of_Z (n : Z) : str :=
  map N_of_ascii (list_ascii_of_string (NilZero.string_of_int (Z.to_int n))).

(** [sep.join(l)] *)
Fixpoint join (sep : str) (l : list str) : str :=
  match l with
  | [] => []
  | [x] => x
  | x :: r => x ++ sep ++ join sep r
  end.

(** ** Exceptions *)

(** The classes named by the [except] clauses of [check_key]. *)
Inductive exc_class :=
| PermissionDenied | InvalidArgument | ResourceExhausted
| GoogleAPICallError | Exception.

Inductive py_value := PyNone | PyInt (n : Z) | PyStr (s : str).

(** [{v}] inside an f-string. *)
Definition fstr (v : py_value) : str :=
  match v with
  | PyNone => u "None"
  | PyInt n => str_of_Z n
  | PyStr s => s
  end.

Record exc := {
  exc_name : str;                       (* type(e).__name__ *)
  exc_isinstance : exc_class -> bool;   (* isinstance(e, C) *)
  exc_code : option py_value            (* e.code, None when hasattr fails *)
}.

Inductive py_result (A : Type) :=
| Return (a : A)
| Raise (e : exc).
Arguments Return {A} a.
Arguments Raise {A} e.

(** [try ... except C1: h1 except C2: h2 ...]: the first clause whose class
    the exception is an instance of handles it; with no such clause the
    exception propagates. *)
Fixpoint except {A} (handlers : list (exc_class * (exc -> py_result A)))
    (e : exc) : py_result A :=
  match handlers with
  | [] => Raise e
  | (c, h) :: rest => if exc_isinstance e c then h e else except rest e
  end.

Definition try_except {A B} (body : py_result A) (ok : A -> py_result B)
    (handlers : list (exc_class * (exc -> py_result B))) : py_result B :=
  match body with
  | Return a => ok a
  | Raise e => except handlers e
  end.

(** ** The probe *)

(** What one probe sends: the key set by [genai.configure], the model of
    [GenerativeModel] and the arguments of [generate_content]. *)
Record request := {
  rq_api_key : str;
  rq_model : str;
  rq_prompt : str;
  rq_max_output_tokens : Z;
  rq_timeout : Z
}.

Inductive response := Response.

(** The remote service (and the client library in front of it): the result
    of the [try] body for a request. *)
Definition service := request -> py_result response.

(** The request made by lines 41-48. *)
Definition probe_request (api_key model_name : str) : request :=
  {| rq_api_key := api_key; rq_model := model_name; rq_prompt := u "Hi";
     rq_max_output_tokens := 1; rq_timeout := 10 |}.

(** [check_key]: the returned tuple or the propagated exception, paired
    with the requests the call has sent. *)
Definition check_key (srv : service) (api_key model_name : str)
    : py_result (str * bool * str) * list request :=
  if negb (truthy api_key) || negb (truthy (strip api_key)) then
    (Return (api_key, false, u "Key is empty"), [])
  else
    let rq := probe_request api_key model_name in
    (try_except (srv rq)
       (fun _ => Return (api_key, true, u "Valid"))
       [ (PermissionDenied, fun _ =>
            Return (api_key, false,
              u "Permission Denied (Code: 403): Invalid API Key, permission issue, or API not enabled."));
         (InvalidArgument, fun _ =>
            Return (api_key, false,
              u "Invalid Argument (Code: 400): Check if model name '"
              ++ model_name ++ u "' is correct or Key is malformed."));
         (ResourceExhausted, fun _ =>
            Return (api_key, false,
              u "Resource Exhausted (Code: 429): Quota limit may have been reached."));
         (GoogleAPICallError, fun e =>
            let code := match exc_code e with
                        | Some v => v
                        | None => PyStr (u "N/A")
                        end in
            Return (api_key, false,
              u "Google API Error (Code: " ++ fstr code ++ u "): "
              ++ exc_name e));
         (Exception, fun e =>
            Return (api_key, false,
              u "An unexpected error occurred: " ++ exc_name e)) ],
     [rq]).

(** ** [json.dumps(l, indent=2)] for a list of strings *)

Definition hex_digit (d : N) : N := if d <? 10 then 48 + d else 87 + d.

(** ['{0:04x}'.format(n)] *)
Definition hex4 (n : N) : str :=
  [hex_digit (n / 4096 mod 16); hex_digit (n / 256 mod 16);
   hex_digit (n / 16 mod 16); hex_digit (n mod 16)].

Definition backslash : N := 92.
Definition dquote : N := 34.

(** The replacement of one character by [encode_basestring_ascii]
    ([ensure_ascii] is left at its default). *)
Definition escape_char (c : N) : str :=
  if c =? dquote then [backslash; dquote]
  else if c =? backslash then [backslash; backslash]
  else if c =? 8 then backslash :: u "b"
  else if c =? 12 then backslash :: u "f"
  else if c =? 10 then backslash :: u "n"
  else if c =? 13 then backslash :: u "r"
  else if c =? 9 then backslash :: u "t"
  else if (0x20 <=? c) && (c <=? 0x7E) then [c]
  else if c <? 0x10000 then backslash :: u "u" ++ hex4 c
  else
    let n := c - 0x10000 in
    let s1 := N.lor 0xD800 (N.land (N.shiftr n 10) 0x3FF) in
    let s2 := N.lor 0xDC00 (N.land n 0x3FF) in
    backslash :: u "u" ++ hex4 s1 ++ backslash :: u "u" ++ hex4 s2.

Definition encode_basestring_ascii (s : str) : str :=
  dquote :: flat_map escape_char s ++ [dquote].

Definition json_dumps_indent2 (l : list str) : str :=
  match l with
  | [] => u "[]"
  | _ =>
    u "[" ++ (10 :: u "  ")
    ++ join (u "," ++ 10 :: u "  ") (map encode_basestring_ascii l)
    ++ [10] ++ u "]"
  end.

(** ** The command line and the world around [main] *)

Inductive Format := fmt_list | fmt_json_array.

(** The namespace returned by [parser.parse_args()]. *)
Record Args := {
  input_file : option str;
  output_file : option str;
  model : str;
  format : Format;
  workers : Z
}.

(** [bool(x)] for an optional string argument. *)
Definition given (a : option str) : option str :=
  match a with
  | Some p => if truthy p then Some p else None
  | None => None
  end.

(** A task handed to the executor: its position in the submission order,
    the key it was created for, and what its [check_key] call does. *)
Record future := {
  fut_index : nat;
  fut_key : str;
  fut_outcome : py_result (str * bool * str);
  fut_sent : list request
}.

Inductive read_result :=
| ReadLines (lines : list str)      (* f.readlines() *)
| ReadFileNotFound                  (* open raises FileNotFoundError *)
| ReadError (e : exc).              (* any other exception of open or read *)

Record World := {
  open_r : str -> read_result;
  stdin_isatty : bool;
  stdin_lines : list str;
  help_text : str;                          (* parser.print_help() *)
  srv : nat -> service;                     (* the service as the i-th task meets it *)
  as_completed : list future -> list future;  (* the futures in completion order *)
  open_w : str -> option str                (* Some m: writing raises IOError, str(e) = m *)
}.

Inductive Status :=
| Exit (code : Z)
| Uncaught (e : exc).

(** What a run leaves behind. [stdout] and [stderr] hold the text of each
    [print] and [progress_bar.write] call, in order, without the newline
    the call adds; the drawing of the progress bar itself is left out. *)
Record Run := {
  stdout : list str;
  stderr : list str;
  written : list (str * list str);   (* path, strings written to it *)
  executors : list Z;                (* max_workers of each pool created *)
  submitted : list future;           (* in submission order *)
  status : Status
}.

Definition ValueError : exc :=
  {| exc_name := u "ValueError";
     exc_isinstance := fun c => match c with Exception => true | _ => false end;
     exc_code := None |}.

(** *** 1. Reading the input *)

Definition filter_keys (lines : list str) : list str :=
  map strip (filter (fun key => truthy (strip key)) lines).

Inductive Input :=
| Keys (keys_to_check : list str)
| Stopped (r : Run).

Definition stop (out err : list str) (st : Status) : Input :=
  Stopped {| stdout := out; stderr := err; written := []; executors := [];
             submitted := []; status := st |}.

Definition read_keys (lines : list str) : Input :=
  let keys_to_check := filter_keys lines in
  match keys_to_check with
  | [] => stop [] [u "输入中未找到任何有效的 API Key。"] (Exit 0)
  | _ :: _ => Keys keys_to_check
  end.

Definition read_input (w : World) (args : Args) : Input :=
  match given (input_file args) with
  | Some path =>
    match open_r w path with
    | ReadLines lines => read_keys lines
    | ReadFileNotFound =>
      stop [] [u "错误: 输入文件 '" ++ path ++ u "' 未找到。"] (Exit 1)
    | ReadError e => stop [] [] (Uncaught e)
    end
  | None =>
    if stdin_isatty w then
      stop [help_text w]
        [10 :: u "错误: 请通过 -i 参数提供输入文件，或通过管道提供输入。"]
        (Exit 1)
    else read_keys (stdin_lines w)
  end.

(** *** 2. Checking the keys *)

(** [{executor.submit(check_key, key, args.model): key for key in
    keys_to_check}], the first key being task [i]. *)
Fixpoint submit_all (w : World) (model_name : str) (i : nat)
    (keys_to_check : list str) : list future :=
  match keys_to_check with
  | [] => []
  | key :: rest =>
    let r := check_key (srv w i) key model_name in
    {| fut_index := i; fut_key := key; fut_outcome := fst r;
       fut_sent := snd r |} :: submit_all w model_name (S i) rest
  end.

Definition failure_line (key reason : str) : str :=
  let key_prefix := firstn 8 key in
  u "  -> Key [" ++ key_prefix ++ u "...] 失败: " ++ reason.

(** The [for future in progress_bar] loop: [future.result()] re-raises what
    the task raised, which ends the loop. The result is the final
    [valid_keys] (or the exception) and the lines written to stderr. *)
Fixpoint collect (yielded : list future) (valid_keys err : list str)
    : py_result (list str) * list str :=
  match yielded with
  | [] => (Return valid_keys, err)
  | f :: rest =>
    match fut_outcome f with
    | Raise e => (Raise e, err)
    | Return (key, is_valid, reason) =>
      if is_valid then collect rest (valid_keys ++ [key]) err
      else collect rest valid_keys (err ++ [failure_line key reason])
    end
  end.

Definition len (l : list str) : str := str_of_Z (Z.of_nat (List.length l)).

Definition banner (keys_to_check : list str) (args : Args) : str :=
  u "开始检查 " ++ len keys_to_check ++ u " 个 Key，使用模型 '"
  ++ model args ++ u "'，并发数: " ++ str_of_Z (workers args) ++ u "...".

(** *** 3. Formatting the output *)

Definition summary (valid_keys : list str) : str :=
  match valid_keys with
  | [] => 10 :: u "检查完成，未找到可用的 Key。"
  | _ :: _ => 10 :: u "检查完成，找到 " ++ len valid_keys ++ u " 个可用的 Key。"
  end.

Definition format_output (fmt : Format) (valid_keys : list str) : str :=
  match valid_keys with
  | [] => []
  | _ :: _ =>
    match fmt with
    | fmt_json_array => json_dumps_indent2 valid_keys
    | fmt_list => join [10] valid_keys
    end
  end.

(** *** 4. Writing the output *)

Definition write_output (w : World) (args : Args) (output_data : str)
    : list str * list str * list (str * list str) :=
  if truthy output_data then
    match given (output_file args) with
    | Some path =>
      match open_w w path with
      | None =>
        ([], [u "结果已保存到: " ++ path],
         [(path, output_data ::
                 match format args with fmt_list => [[10]] | _ => [] end)])
      | Some e =>
        ([], [u "错误: 无法写入文件 '" ++ path ++ u "': " ++ e], [])
      end
    | None => ([output_data], [], [])
    end
  else ([], [], []).

(** Section 2 of [main] once the pool exists: submit, then collect in
    completion order. *)
Definition check_all (w : World) (args : Args) (keys_to_check : list str)
    : py_result (list str) * list str :=
  let future_to_key := submit_all w (model args) 0 keys_to_check in
  collect (as_completed w future_to_key) [] [banner keys_to_check args].

Definition main (w : World) (args : Args) : Run :=
  match read_input w args with
  | Stopped r => r
  | Keys keys_to_check =>
    if (workers args <=? 0)%Z then
      (* ThreadPoolExecutor(max_workers=...) raises ValueError *)
      {| stdout := []; stderr := [banner keys_to_check args]; written := [];
         executors := []; submitted := []; status := Uncaught ValueError |}
    else
      let future_to_key := submit_all w (model args) 0 keys_to_check in
      match check_all w args keys_to_check with
      | (Raise e, err1) =>
        {| stdout := []; stderr := err1; written := [];
           executors := [workers args]; submitted := future_to_key;
           status := Uncaught e |}
      | (Return valid_keys, err1) =>
        let output_data := format_output (format args) valid_keys in
        let '(out, err2, files) := write_output w args output_data in
        {| stdout := out; stderr := err1 ++ [summary valid_keys] ++ err2;
           written := files; executors := [workers args];
           submitted := future_to_key; status := Exit 0 |}
      end
  end.

(** * The specification's vocabulary *)

(** ** The taxonomy of section 4.2 *)

Inductive Code :=
| EMPTY | PERMISSION_DENIED | INVALID_ARGUMENT | RESOURCE_EXHAUSTED
| SERVICE_ERROR | UNKNOWN_ERROR | VALID.

Definition all_codes : list Code :=
  [EMPTY; PERMISSION_DENIED; INVALID_ARGUMENT; RESOURCE_EXHAUSTED;
   SERVICE_ERROR; UNKNOWN_ERROR; VALID].

(** A credential that is empty or only whitespace. *)
Definition blank (credential : str) : bool := forallb isspace credential.

(** The classifier as the specification words it: the seven cases in their
    precedence order, the first match winning. *)
Definition classify (credential : str) (raw : py_result response) : Code :=
  if blank credential then EMPTY
  else match raw with
       | Raise e =>
         if exc_isinstance e PermissionDenied then PERMISSION_DENIED
         else if exc_isinstance e InvalidArgument then INVALID_ARGUMENT
         else if exc_isinstance e ResourceExhausted then RESOURCE_EXHAUSTED
         else if exc_isinstance e GoogleAPICallError then SERVICE_ERROR
         else UNKNOWN_ERROR
       | Return _ => VALID
       end.

Definition is_VALID (c : Code) : bool :=
  match c with VALID => true | _ => false end.

(** [s.startswith(p)] and [x in s] *)
Fixpoint startswith (s p : str) {struct p} : bool :=
  match p, s with
  | [], _ => true
  | c :: p', d :: s' => (c =? d) && startswith s' p'
  | _ :: _, [] => false
  end.

Fixpoint contains (s x : str) : bool :=
  startswith s x || match s with [] => false | _ :: r => contains r x end.

(** How the script spells each code at the head of a reason. *)
Definition tag (c : Code) : str :=
  match c with
  | EMPTY => u "Key is empty"
  | PERMISSION_DENIED => u "Permission Denied (Code: 403)"
  | INVALID_ARGUMENT => u "Invalid Argument (Code: 400)"
  | RESOURCE_EXHAUSTED => u "Resource Exhausted (Code: 429)"
  | SERVICE_ERROR => u "Google API Error (Code: "
  | UNKNOWN_ERROR => u "An unexpected error occurred: "
  | VALID => u "Valid"
  end.

(** The codes a reason carries. *)
Definition codes_of (reason : str) : list Code :=
  filter (fun c => startswith reason (tag c)) all_codes.

(** The [code] shown by the fourth handler. *)
Definition code_text (e : exc) : str :=
  match exc_code e with Some v => fstr v | None => u "N/A" end.

(** What the detail of a code has to show. *)
Definition detail_ok (c : Code) (raw : py_result response)
    (model_name reason : str) : Prop :=
  match c, raw with
  | INVALID_ARGUMENT, _ => contains reason model_name = true
  | SERVICE_ERROR, Raise e =>
    contains reason (code_text e) = true /\ contains reason (exc_name e) = true
  | UNKNOWN_ERROR, Raise e => contains reason (exc_name e) = true
  | _, _ => True
  end.

(** An exception that one of the five [except] clauses takes. *)
Definition caught (e : exc) : bool :=
  existsb (exc_isinstance e)
    [PermissionDenied; InvalidArgument; ResourceExhausted;
     GoogleAPICallError; Exception].

(** ** Reading the two output formats back *)

(** [s.split(c)] for a one-character separator. *)
Fixpoint split_on (c : N) (s : str) : list str :=
  match s with
  | [] => [[]]
  | x :: r =>
    if x =? c then [] :: split_on c r
    else match split_on c r with
         | h :: t => (x :: h) :: t
         | [] => [[x]]
         end
  end.

(** A reader of JSON arrays of strings, after RFC 8259: white space
    between tokens, the two-character escapes, [\uXXXX], and a surrogate
    pair read as one character. *)
Definition json_ws (c : N) : bool :=
  (c =? 32) || (c =? 9) || (c =? 10) || (c =? 13).

Fixpoint skip_ws (s : str) : str :=
  match s with
  | c :: r => if json_ws c then skip_ws r else s
  | [] => []
  end.

Definition unhex (c : N) : option N :=
  if (48 <=? c) && (c <=? 57) then Some (c - 48)
  else if (97 <=? c) && (c <=? 102) then Some (c - 87)
  else if (65 <=? c) && (c <=? 70) then Some (c - 55)
  else None.

Definition unhex4 (a b c d : N) : option N :=
  match unhex a, unhex b, unhex c, unhex d with
  | Some x, Some y, Some z, Some t => Some (x * 4096 + y * 256 + z * 16 + t)
  | _, _, _, _ => None
  end.

Definition unescape (e : N) : option N :=
  if e =? dquote then Some dquote
  else if e =? backslash then Some backslash
  else if e =? 47 then Some 47
  else if e =? 98 then Some 8
  else if e =? 102 then Some 12
  else if e =? 110 then Some 10
  else if e =? 114 then Some 13
  else if e =? 116 then Some 9
  else None.

Definition push (c : N) (r : option (str * str)) : option (str * str) :=
  match r with
  | Some (s, rest) => Some (c :: s, rest)
  | None => None
  end.

(** The characters of a string literal after its opening quote, and what
    follows the closing quote. *)
Fixpoint read_chars (s : str) : option (str * str) :=
  match s with
  | [] => None
  | c :: r =>
    if c =? dquote then Some ([], r)
    else if c =? backslash then
      match r with
      | [] => None
      | e :: r1 =>
        if e =? 117 then
          match r1 with
          | h1 :: h2 :: h3 :: h4 :: r2 =>
            match unhex4 h1 h2 h3 h4 with
            | None => None
            | Some n =>
              if (0xD800 <=? n) && (n <=? 0xDBFF) then
                match r2 with
                | b :: v :: l1 :: l2 :: l3 :: l4 :: r3 =>
                  match unhex4 l1 l2 l3 l4 with
                  | Some m =>
                    if (b =? backslash) && (v =? 117)
                       && (0xDC00 <=? m) && (m <=? 0xDFFF)
                    then push (0x10000 + N.lor (N.shiftl (n - 0xD800) 10)
                                               (m - 0xDC00))
                              (read_chars r3)
                    else push n (read_chars r2)
                  | None => push n (read_chars r2)
                  end
                | _ => push n (read_chars r2)
                end
              else push n (read_chars r2)
            end
          | _ => None
          end
        else match unescape e with
             | Some c' => push c' (read_chars r1)
             | None => None
             end
      end
    else if c <? 0x20 then None
    else push c (read_chars r)
  end.

(** The rest of an array after one of its elements. *)
Fixpoint read_items (fuel : nat) (s : str) : option (list str) :=
  match fuel with
  | O => None
  | S fuel' =>
    match skip_ws s with
    | c :: r =>
      if c =? 93 then
        match skip_ws r with [] => Some [] | _ :: _ => None end
      else if c =? 44 then
        match skip_ws r with
        | q :: r1 =>
          if q =? dquote then
            match read_chars r1 with
            | Some (x, r2) => option_map (cons x) (read_items fuel' r2)
            | None => None
            end
          else None
        | [] => None
        end
      else None
    | [] => None
    end
  end.

Definition json_loads (s : str) : option (list str) :=
  match skip_ws s with
  | c :: r =>
    if c =? 91 then
      match skip_ws r with
      | q :: r1 =>
        if q =? 93 then
          match skip_ws r1 with [] => Some [] | _ :: _ => None end
        else if q =? dquote then
          match read_chars r1 with
          | Some (x, r2) =>
            option_map (cons x) (read_items (S (List.length r2)) r2)
          | None => None
          end
        else None
      | [] => None
      end
    else None
  | [] => None
  end.

(** A code point that is a Unicode scalar value (no surrogate). *)
Definition scalar (c : N) : Prop :=
  c < 0xD800 \/ (0xE000 <= c /\ c < 0x110000).

Definition scalarb (c : N) : bool :=
  (c <? 0xD800) || ((0xE000 <=? c) && (c <? 0x110000)).

(** What [json.dumps] writes after the first element. *)
Definition items_tail (l : list str) : str :=
  flat_map (fun x => 44 :: 10 :: 32 :: 32 :: dquote
                     :: flat_map escape_char x ++ [dquote]) l
  ++ [10; 93].

(** ** The two partitions of section 4.4 *)

(** A task whose [check_key] returned a tuple. *)
Definition returned (f : future) : Prop :=
  exists t, fut_outcome f = Return t.

Definition fut_valid (f : future) : bool :=
  match fut_outcome f with Return (_, true, _) => true | _ => false end.

Definition fut_invalid (f : future) : bool :=
  match fut_outcome f with Return (_, false, _) => true | _ => false end.

(** The key a task's tuple carries, and the line reported for it. *)
Definition fut_result_key (f : future) : str :=
  match fut_outcome f with Return (key, _, _) => key | Raise _ => [] end.

Definition fut_line (f : future) : str :=
  match fut_outcome f with
  | Return (key, _, reason) => failure_line key reason
  | Raise _ => []
  end.

(** * Sample exceptions, services and worlds *)

Definition exc_class_eqb (c d : exc_class) : bool :=
  match c, d with
  | PermissionDenied, PermissionDenied | InvalidArgument, InvalidArgument
  | ResourceExhausted, ResourceExhausted
  | GoogleAPICallError, GoogleAPICallError | Exception, Exception => true
  | _, _ => false
  end.

(** An exception given by the classes among the five that its type
    derives from. *)
Definition mk_exc (name : string) (bases : list exc_class)
    (code : option py_value) : exc :=
  {| exc_name := u name;
     exc_isinstance := fun c => existsb (exc_class_eqb c) bases;
     exc_code := code |}.

Definition permission_denied : exc :=
  mk_exc "PermissionDenied" [PermissionDenied; GoogleAPICallError; Exception]
         (Some (PyInt 403)).
Definition invalid_argument : exc :=
  mk_exc "InvalidArgument" [InvalidArgument; GoogleAPICallError; Exception]
         (Some (PyInt 400)).
Definition resource_exhausted : exc :=
  mk_exc "ResourceExhausted" [ResourceExhausted; GoogleAPICallError; Exception]
         (Some (PyInt 429)).
Definition service_unavailable : exc :=
  mk_exc "ServiceUnavailable" [GoogleAPICallError; Exception]
         (Some (PyInt 503)).
Definition connection_error : exc := mk_exc "ConnectionError" [Exception] None.

(** Two built-in exceptions that derive from [BaseException] only. *)
Definition KeyboardInterrupt : exc := mk_exc "KeyboardInterrupt" [] None.
Definition SystemExit : exc := mk_exc "SystemExit" [] (Some PyNone).

Definition key_a : str := u "AIzaSyA-0123456789".
Definition key_b : str := u "AIzaSyB-abcdefghij".
Definition key_c : str := u "AIzaSyC-klmnopqrst".
Definition flash_lite : str := u "gemini-2.0-flash-lite".

(** A service that accepts [key_a], answers 403 to [key_b] and cannot be
    reached for any other key. *)
Definition srv_ab : service := fun rq =>
  if startswith (rq_api_key rq) key_a then Return Response
  else if startswith (rq_api_key rq) key_b then Raise permission_denied
  else Raise connection_error.

(** A service whose client is interrupted on every request. *)
Definition srv_interrupted : service := fun _ => Raise KeyboardInterrupt.
Definition srv_exiting : service := fun _ => Raise SystemExit.

(** Keys piped in on standard input, the last task finishing first. *)
Definition piped (lines : list str) (s : nat -> service) : World :=
  {| open_r := fun _ => ReadFileNotFound;
     stdin_isatty := false;
     stdin_lines := lines;
     help_text := u "usage: check_gemini_keys.py";
     srv := s;
     as_completed := @rev future;
     open_w := fun _ => None |}.

Definition default_args : Args :=
  {| input_file := None; output_file := None; model := flash_lite;
     format := fmt_list; workers := 20 |}.

Definition nl (s : str) : str := s ++ [10].

Definition w_abc : World :=
  piped [nl key_a; nl (u ""); nl (u "  " ++ key_b); nl key_c; nl key_a]
        (fun _ => srv_ab).

(** The same input, the task of the second key exiting its thread. *)
Definition w_exit : World :=
  piped [nl key_a; nl key_b; nl key_c]
        (fun i => match i with 1%nat => srv_exiting | _ => srv_ab end).

Definition keys_abc : list str := [key_a; key_b; key_c; key_a].

(** Three keys and a service that no request reaches. *)
Definition w_none : World :=
  piped [nl key_a; nl key_b; nl key_c] (fun _ _ => Raise connection_error).

(** Only blank lines on standard input. *)
Definition w_blank : World :=
  piped [nl (u ""); u "  " ++ [9; 10]; [0x3000]] (fun _ => srv_ab).

(** ** Keys as the checks receive them *)

(** A string that neither starts nor ends with whitespace. *)
Definition no_space_head (s : str) : Prop :=
  match s with [] => True | c :: _ => isspace c = false end.

Definition trimmed (s : str) : Prop :=
  no_space_head s /\ no_space_head (rev s).

(** The characters [json.dumps] may write: printable ASCII and newline. *)
Definition json_ascii (c : N) : Prop := c = 10 \/ (0x20 <= c /\ c <= 0x7E).

(** ** A world with files *)

Fixpoint str_eqb (s t : str) : bool :=
  match s, t with
  | [], [] => true
  | c :: s', d :: t' => (c =? d) && str_eqb s' t'
  | _, _ => false
  end.

(** [keys.txt] holds three lines; nothing can be written under [/proc/];
    standard input is a terminal; tasks complete in submission order. *)
Definition w_file : World :=
  {| open_r := fun path =>
       if str_eqb path (u "keys.txt")
       then ReadLines [nl key_a; nl (u "  " ++ key_b ++ [9]); nl key_a]
       else ReadFileNotFound;
     stdin_isatty := true;
     stdin_lines := [];
     help_text := u "usage: check_gemini_keys.py";
     srv := fun _ => srv_ab;
     as_completed := fun l => l;
     open_w := fun path =>
       if startswith path (u "/proc/")
       then Some (u "[Errno 13] Permission denied")
       else None |}.

Definition args_file (input output : string) (fmt : Format) : Args :=
  {| input_file := Some (u input); output_file := Some (u output);
     model := flash_lite; format := fmt; workers := 4 |}.

Definition args_saved : Args := args_file "keys.txt" "valid.txt" fmt_list.
Definition args_unwritable : Args :=
  args_file "keys.txt" "/proc/valid.txt" fmt_json_array.
Definition args_missing : Args := args_file "nokeys.txt" "valid.txt" fmt_list.
(** An empty [-i] argument: the keys come from standard input. *)
Definition args_piped_saved : Args := args_file "" "valid.txt" fmt_list.
Definition args_no_workers : Args :=
  {| input_file := None; output_file := None; model := flash_lite;
     format := fmt_list; workers := 0 |}.
Definition args_json : Args :=
  {| input_file := None; output_file := None; model := flash_lite;
     format := fmt_json_array; workers := 2 |}.
Definition keys_file : list str := [key_a; key_b; key_a].
Definition keys_3 : list str := [key_a; key_b; key_c].

(** * Properties *)

(** ** Strings *)

Lemma lstrip_nil_iff (s : str) : lstrip s = [] <-> forallb isspace s = true.
Proof.
  induction s as [|c r IH]; simpl.
  - tauto.
  - destruct (isspace c); simpl.
    + exact IH.
    + split; discriminate.
Qed.

Lemma lstrip_head (s : str) :
  match lstrip s with [] => True | c :: _ => isspace c = false end.
Proof.
  induction s as [|c r IH]; simpl; [exact I|].
  destruct (isspace c) eqn:E; [exact IH | exact E].
Qed.

Lemma forallb_rev {A} (f : A -> bool) (l : list A) :
  forallb f (rev l) = forallb f l.
Proof.
  induction l as [|a l IH]; simpl; [reflexivity|].
  rewrite forallb_app, IH. simpl. rewrite andb_true_r. apply andb_comm.
Qed.

Lemma strip_nil_iff (s : str) : strip s = [] <-> blank s = true.
Proof.
  unfold strip, rstrip, blank. split.
  - intros H. apply (f_equal (@rev N)) in H. rewrite rev_involutive in H.
    simpl in H. apply lstrip_nil_iff in H. rewrite forallb_rev in H.
    pose proof (lstrip_head s) as Hh. apply lstrip_nil_iff.
    destruct (lstrip s) as [|c r]; [reflexivity|].
    simpl in H. rewrite Hh in H. discriminate.
  - intros H. apply lstrip_nil_iff in H. rewrite H. reflexivity.
Qed.

(** The guard of [check_key] is the specification's blank test. *)
Lemma guard_blank (api_key : str) :
  negb (truthy api_key) || negb (truthy (strip api_key)) = blank api_key.
Proof.
  destruct (blank api_key) eqn:B.
  - apply strip_nil_iff in B. rewrite B. simpl. apply orb_true_r.
  - destruct api_key as [|c r]; [discriminate B|]. simpl negb at 1. simpl orb.
    destruct (strip (c :: r)) eqn:S; [|reflexivity].
    apply strip_nil_iff in S. congruence.
Qed.

Lemma startswith_app (p r : str) : startswith (p ++ r) p = true.
Proof.
  induction p as [|c p IH]; simpl; [reflexivity|].
  now rewrite N.eqb_refl, IH.
Qed.

Lemma contains_app (a x b : str) : contains (a ++ x ++ b) x = true.
Proof.
  induction a as [|c a IH].
  - change (([] : str) ++ x ++ b) with (x ++ b).
    destruct x as [|d x]; [destruct b; reflexivity|].
    change (contains ((d :: x) ++ b) (d :: x))
      with (startswith ((d :: x) ++ b) (d :: x) || contains (x ++ b) (d :: x)).
    now rewrite startswith_app.
  - change (contains ((c :: a) ++ x ++ b) x)
      with (startswith ((c :: a) ++ x ++ b) x || contains (a ++ x ++ b) x).
    rewrite IH. apply orb_true_r.
Qed.

Lemma contains_end (a x : str) : contains (a ++ x) x = true.
Proof.
  rewrite <- (app_nil_r x) at 1. apply contains_app.
Qed.

(** ** [check_key] *)

Lemma check_key_blank (srv : service) (api_key model_name : str) :
  blank api_key = true ->
  check_key srv api_key model_name
  = (Return (api_key, false, u "Key is empty"), []).
Proof.
  intros B. unfold check_key. now rewrite guard_blank, B.
Qed.

Lemma check_key_sends (srv : service) (api_key model_name : str) :
  blank api_key = false ->
  snd (check_key srv api_key model_name) = [probe_request api_key model_name].
Proof.
  intros B. unfold check_key. now rewrite guard_blank, B.
Qed.

Lemma caught_Exception (e : exc) :
  exc_isinstance e Exception = true -> caught e = true.
Proof.
  intros H. unfold caught. simpl. rewrite H. now rewrite !orb_true_r.
Qed.

(** The whole behaviour of [check_key] on a key and the result of its
    probe, in the specification's words. *)
Lemma check_key_cases (srv : service) (api_key model_name : str) :
  let raw := srv (probe_request api_key model_name) in
  let c := classify api_key raw in
  match fst (check_key srv api_key model_name) with
  | Return (key, is_valid, reason) =>
    key = api_key /\ is_valid = is_VALID c /\ codes_of reason = [c]
    /\ detail_ok c raw model_name reason
  | Raise e => blank api_key = false /\ raw = Raise e /\ caught e = false
  end.
Proof.
  intros raw c. subst c raw. unfold check_key, classify.
  rewrite guard_blank. destruct (blank api_key) eqn:B.
  { simpl. repeat split; reflexivity. }
  cbn [fst]. destruct (srv (probe_request api_key model_name)) as [[]|e].
  { simpl. repeat split; reflexivity. }
  unfold try_except. cbn [except].
  destruct (exc_isinstance e PermissionDenied) eqn:E1.
  { repeat split; reflexivity. }
  destruct (exc_isinstance e InvalidArgument) eqn:E2.
  { repeat split; try reflexivity. apply contains_app. }
  destruct (exc_isinstance e ResourceExhausted) eqn:E3.
  { repeat split; reflexivity. }
  destruct (exc_isinstance e GoogleAPICallError) eqn:E4.
  { repeat split; try reflexivity.
    - unfold code_text. destruct (exc_code e); apply contains_app.
    - rewrite !app_assoc. apply contains_end. }
  destruct (exc_isinstance e Exception) eqn:E5.
  { repeat split; try reflexivity. apply contains_end. }
  repeat split; try reflexivity.
  unfold caught. simpl. now rewrite E1, E2, E3, E4, E5.
Qed.

(** The handlers on the sample exceptions, alone and with an exception
    whose type derives from two of the named classes. *)
Example check_key_403 :
  check_key (fun _ => Raise permission_denied) key_b flash_lite
  = (Return (key_b, false,
       u "Permission Denied (Code: 403): Invalid API Key, permission issue, or API not enabled."),
     [probe_request key_b flash_lite]).
Proof. vm_compute. reflexivity. Qed.

Example check_key_400 :
  fst (check_key (fun _ => Raise invalid_argument) key_b (u "gemini-x"))
  = Return (key_b, false,
      u "Invalid Argument (Code: 400): Check if model name 'gemini-x' is correct or Key is malformed.").
Proof. vm_compute. reflexivity. Qed.

Example check_key_429 :
  fst (check_key (fun _ => Raise resource_exhausted) key_b flash_lite)
  = Return (key_b, false,
      u "Resource Exhausted (Code: 429): Quota limit may have been reached.").
Proof. vm_compute. reflexivity. Qed.

Example check_key_503 :
  fst (check_key (fun _ => Raise service_unavailable) key_b flash_lite)
  = Return (key_b, false, u "Google API Error (Code: 503): ServiceUnavailable").
Proof. vm_compute. reflexivity. Qed.

Example check_key_connection :
  fst (check_key (fun _ => Raise connection_error) key_b flash_lite)
  = Return (key_b, false, u "An unexpected error occurred: ConnectionError").
Proof. vm_compute. reflexivity. Qed.

Example check_key_valid :
  check_key (fun _ => Return Response) key_a flash_lite
  = (Return (key_a, true, u "Valid"), [probe_request key_a flash_lite]).
Proof. vm_compute. reflexivity. Qed.

Example check_key_first_match :
  fst (check_key
         (fun _ => Raise (mk_exc "Both"
                            [InvalidArgument; PermissionDenied;
                             GoogleAPICallError; Exception] None))
         key_b flash_lite)
  = Return (key_b, false,
      u "Permission Denied (Code: 403): Invalid API Key, permission issue, or API not enabled.").
Proof. vm_compute. reflexivity. Qed.

Lemma check_key_returns_key (srv : service) (api_key model_name : str)
    (t : str * bool * str) :
  fst (check_key srv api_key model_name) = Return t -> fst (fst t) = api_key.
Proof.
  intros H. pose proof (check_key_cases srv api_key model_name) as C.
  cbv zeta in C. rewrite H in C. destruct t as [[key v] reason].
  simpl. tauto.
Qed.

Lemma check_key_caught (srv : service) (api_key model_name : str) :
  (forall e, srv (probe_request api_key model_name) = Raise e ->
             caught e = true) ->
  exists is_valid reason,
    fst (check_key srv api_key model_name)
    = Return (api_key, is_valid, reason)
    /\ (is_valid = true ->
        srv (probe_request api_key model_name) = Return Response).
Proof.
  intros H. pose proof (check_key_cases srv api_key model_name) as C.
  cbv zeta in C.
  destruct (fst (check_key srv api_key model_name)) as [[[key v] reason]|e].
  - destruct C as (-> & Hv & _). exists v, reason. split; [reflexivity|].
    intros ->. unfold classify in Hv.
    destruct (blank api_key); [discriminate|].
    destruct (srv (probe_request api_key model_name)) as [[]|e];
      [reflexivity|].
    repeat match type of Hv with
           | context [if ?b then _ else _] => destruct b
           end; discriminate.
  - destruct C as (_ & R & Hc). rewrite (H e R) in Hc. discriminate.
Qed.

(** ** Submitting the tasks *)

Lemma submit_all_keys (w : World) (m : str) (i : nat) (keys : list str) :
  map fut_key (submit_all w m i keys) = keys.
Proof.
  revert i. induction keys as [|k r IH]; intros i; simpl; [reflexivity|].
  now rewrite IH.
Qed.

Lemma submit_all_index (w : World) (m : str) (i : nat) (keys : list str) :
  map fut_index (submit_all w m i keys) = seq i (List.length keys).
Proof.
  revert i. induction keys as [|k r IH]; intros i; simpl; [reflexivity|].
  now rewrite IH.
Qed.

Lemma submit_all_length (w : World) (m : str) (i : nat) (keys : list str) :
  List.length (submit_all w m i keys) = List.length keys.
Proof.
  rewrite <- (submit_all_keys w m i keys) at 2. now rewrite length_map.
Qed.

(** Every task is the [check_key] call on its own key. *)
Lemma submit_all_outcome (w : World) (m : str) (i : nat) (keys : list str) :
  Forall (fun f =>
            fut_outcome f = fst (check_key (srv w (fut_index f)) (fut_key f) m)
            /\ fut_sent f = snd (check_key (srv w (fut_index f)) (fut_key f) m))
         (submit_all w m i keys).
Proof.
  revert i. induction keys as [|k r IH]; intros i; simpl; constructor.
  - simpl. split; reflexivity.
  - apply IH.
Qed.

Lemma submitted_result_key (w : World) (m : str) (i : nat) (keys : list str) :
  Forall (fun f => returned f -> fut_result_key f = fut_key f)
         (submit_all w m i keys).
Proof.
  eapply Forall_impl; [|apply submit_all_outcome].
  intros f [Ho _] [t Ht]. unfold fut_result_key. rewrite Ht.
  rewrite Ho in Ht. apply check_key_returns_key in Ht.
  destruct t as [[key v] reason]. exact Ht.
Qed.

(** ** Collecting the outcomes *)

Lemma filter_split_perm {A} (p q : A -> bool) (l : list A) :
  Forall (fun a => q a = negb (p a)) l ->
  Permutation (filter p l ++ filter q l) l.
Proof.
  induction 1 as [|a l Ha _ IH]; simpl; [constructor|].
  rewrite Ha. destruct (p a); simpl.
  - now constructor.
  - apply Permutation_sym, Permutation_cons_app, Permutation_sym, IH.
Qed.

Lemma returned_valid_invalid (f : future) :
  returned f -> fut_invalid f = negb (fut_valid f).
Proof.
  intros [[[key v] reason] H]. unfold fut_invalid, fut_valid. rewrite H.
  now destruct v.
Qed.

(** When every yielded task returned, the loop keeps the keys of the valid
    ones and writes one line for each of the others. *)
Lemma collect_returned (ys : list future) (valid_keys err : list str) :
  Forall returned ys ->
  collect ys valid_keys err
  = (Return (valid_keys ++ map fut_result_key (filter fut_valid ys)),
     err ++ map fut_line (filter fut_invalid ys)).
Proof.
  intros H. revert valid_keys err.
  induction H as [|f ys [[[key v] reason] Hf] _ IH]; intros valid_keys err.
  - simpl. now rewrite !app_nil_r.
  - assert (Hv : fut_valid f = v)
      by (unfold fut_valid; rewrite Hf; now destruct v).
    assert (Hi : fut_invalid f = negb v)
      by (unfold fut_invalid; rewrite Hf; now destruct v).
    assert (Hk : fut_result_key f = key)
      by (unfold fut_result_key; now rewrite Hf).
    assert (Hl : fut_line f = failure_line key reason)
      by (unfold fut_line; now rewrite Hf).
    simpl. rewrite Hf, Hv, Hi.
    destruct v; rewrite IH; simpl; rewrite ?Hk, ?Hl, <- ?app_assoc;
      reflexivity.
Qed.

(** The loop ends normally only when every yielded task returned. *)
Lemma collect_Return (ys : list future) (valid_keys err : list str)
    (v e : list str) :
  collect ys valid_keys err = (Return v, e) -> Forall returned ys.
Proof.
  revert valid_keys err. induction ys as [|f ys IH]; intros valid_keys err H.
  - constructor.
  - simpl in H. destruct (fut_outcome f) as [[[key b] reason]|x] eqn:Hf;
      [|discriminate].
    constructor; [eexists; exact Hf|].
    destruct b; eapply IH; exact H.
Qed.

(** The first task that raised, in completion order, ends the loop. *)
Lemma collect_Raise (ys : list future) (valid_keys err : list str) :
  ~ Forall returned ys ->
  exists x e, collect ys valid_keys err = (Raise x, e).
Proof.
  revert valid_keys err. induction ys as [|f ys IH]; intros valid_keys err H.
  - destruct H. constructor.
  - simpl. destruct (fut_outcome f) as [[[key b] reason]|x] eqn:Hf.
    + assert (Hys : ~ Forall returned ys).
      { intros Hys. apply H. constructor; [eexists; exact Hf | exact Hys]. }
      destruct b; apply IH; exact Hys.
    + eauto.
Qed.

(** ** [main] *)

Lemma main_submitted (w : World) (args : Args) (keys : list str) :
  read_input w args = Keys keys -> (0 < workers args)%Z ->
  submitted (main w args) = submit_all w (model args) 0 keys
  /\ executors (main w args) = [workers args].
Proof.
  intros Hr Hw. unfold main. rewrite Hr.
  apply Z.leb_gt in Hw. rewrite Hw.
  destruct (check_all w args keys) as [[v|e] err]; [|split; reflexivity].
  destruct (write_output w args (format_output (format args) v)) as [[? ?] ?].
  split; reflexivity.
Qed.

Lemma main_completed (w : World) (args : Args)
    (keys valid_keys err : list str) :
  read_input w args = Keys keys -> (0 < workers args)%Z ->
  check_all w args keys = (Return valid_keys, err) ->
  let out := write_output w args (format_output (format args) valid_keys) in
  main w args
  = {| stdout := fst (fst out);
       stderr := err ++ [summary valid_keys] ++ snd (fst out);
       written := snd out;
       executors := [workers args];
       submitted := submit_all w (model args) 0 keys;
       status := Exit 0 |}.
Proof.
  intros Hr Hw Hc out. subst out. unfold main. rewrite Hr.
  apply Z.leb_gt in Hw. rewrite Hw, Hc.
  destruct (write_output w args (format_output (format args) valid_keys))
    as [[? ?] ?].
  reflexivity.
Qed.

Lemma main_raised (w : World) (args : Args) (keys err : list str) (e : exc) :
  read_input w args = Keys keys -> (0 < workers args)%Z ->
  check_all w args keys = (Raise e, err) ->
  status (main w args) = Uncaught e /\ stdout (main w args) = []
  /\ written (main w args) = [].
Proof.
  intros Hr Hw Hc. unfold main. rewrite Hr.
  apply Z.leb_gt in Hw. rewrite Hw, Hc. repeat split.
Qed.

(** What the loop leaves when it ends normally. *)
Lemma check_all_completed (w : World) (args : Args)
    (keys valid_keys err : list str) :
  let futs := submit_all w (model args) 0 keys in
  Permutation (as_completed w futs) futs ->
  check_all w args keys = (Return valid_keys, err) ->
  Forall returned futs
  /\ valid_keys = map fut_key (filter fut_valid (as_completed w futs))
  /\ err = banner keys args
           :: map fut_line (filter fut_invalid (as_completed w futs)).
Proof.
  intros futs Hp Hc. unfold check_all in Hc. fold futs in Hc.
  pose proof (collect_Return _ _ _ _ _ Hc) as Hy.
  assert (Hf : Forall returned futs).
  { rewrite Forall_forall in *. intros f Hin. apply Hy.
    eapply Permutation_in; [apply Permutation_sym, Hp | exact Hin]. }
  rewrite (collect_returned _ _ _ Hy) in Hc.
  injection Hc as <- <-. repeat split; [exact Hf|].
  simpl. apply map_ext_in. intros f Hin.
  apply filter_In in Hin. destruct Hin as [Hin _].
  pose proof (submitted_result_key w (model args) 0 keys) as Hk.
  rewrite Forall_forall in Hk, Hy. apply Hk; [|apply Hy; exact Hin].
  eapply Permutation_in; [exact Hp | exact Hin].
Qed.

(** When no probe raises outside [Exception], every task returns. *)
Lemma submitted_returned (w : World) (m : str) (i : nat) (keys : list str) :
  (forall j rq e, srv w j rq = Raise e -> exc_isinstance e Exception = true) ->
  Forall returned (submit_all w m i keys).
Proof.
  intros He. eapply Forall_impl; [|apply submit_all_outcome].
  intros f [Ho _].
  destruct (check_key_caught (srv w (fut_index f)) (fut_key f) m)
    as (v & reason & Hr & _).
  { intros e Hraise. apply caught_Exception, (He _ _ _ Hraise). }
  exists (fut_key f, v, reason). now rewrite Ho.
Qed.

Lemma check_all_returned (w : World) (args : Args) (keys : list str) :
  let futs := submit_all w (model args) 0 keys in
  Permutation (as_completed w futs) futs ->
  Forall returned futs ->
  exists valid_keys err, check_all w args keys = (Return valid_keys, err).
Proof.
  intros futs Hp Hf. unfold check_all. fold futs.
  rewrite collect_returned; [eauto|].
  rewrite Forall_forall in *. intros f Hin. apply Hf.
  eapply Permutation_in; [exact Hp | exact Hin].
Qed.

(** ** The JSON array read back *)

Lemma unhex_hex_digit (d : N) : d < 16 -> unhex (hex_digit d) = Some d.
Proof.
  intros H.
  assert (D : d = 0 \/ d = 1 \/ d = 2 \/ d = 3 \/ d = 4 \/ d = 5 \/ d = 6
              \/ d = 7 \/ d = 8 \/ d = 9 \/ d = 10 \/ d = 11 \/ d = 12
              \/ d = 13 \/ d = 14 \/ d = 15) by lia.
  repeat (destruct D as [->|D]; [reflexivity|]). subst d. reflexivity.
Qed.

Lemma hex4_digits (n : N) :
  n < 65536 ->
  (n / 4096 mod 16) * 4096 + (n / 256 mod 16) * 256 + (n / 16 mod 16) * 16
  + n mod 16 = n.
Proof.
  intros H.
  pose proof (N.div_mod n 16 ltac:(lia)).
  pose proof (N.mod_lt n 16 ltac:(lia)).
  pose proof (N.div_mod (n / 16) 16 ltac:(lia)).
  pose proof (N.mod_lt (n / 16) 16 ltac:(lia)).
  pose proof (N.div_mod (n / 16 / 16) 16 ltac:(lia)).
  pose proof (N.mod_lt (n / 16 / 16) 16 ltac:(lia)).
  pose proof (N.div_mod (n / 16 / 16 / 16) 16 ltac:(lia)).
  pose proof (N.mod_lt (n / 16 / 16 / 16) 16 ltac:(lia)).
  replace (n / 256) with (n / 16 / 16)
    by (rewrite N.Div0.div_div; reflexivity).
  replace (n / 4096) with (n / 16 / 16 / 16)
    by (rewrite !N.Div0.div_div; reflexivity).
  assert (n / 16 / 16 / 16 / 16 = 0)
    by (rewrite !N.Div0.div_div; apply N.div_small; simpl; lia).
  lia.
Qed.

Lemma unhex4_hex4 (n : N) :
  n < 65536 ->
  unhex4 (hex_digit (n / 4096 mod 16)) (hex_digit (n / 256 mod 16))
         (hex_digit (n / 16 mod 16)) (hex_digit (n mod 16)) = Some n.
Proof.
  intros H. unfold unhex4.
  rewrite !unhex_hex_digit by (apply N.mod_lt; discriminate).
  now rewrite hex4_digits.
Qed.

Lemma lor_high_low (a b : N) : b < 1024 -> N.lor (a * 1024) b = a * 1024 + b.
Proof.
  intros Hb. rewrite <- N.lxor_lor, <- N.add_nocarry_lxor; try reflexivity.
  all: change 1024 with (2 ^ 10) in *; rewrite <- N.shiftl_mul_pow2.
  all: apply N.bits_inj; intros i; rewrite N.land_spec, N.bits_0.
  all: destruct (N.lt_ge_cases i 10) as [Hi|Hi].
  all: try (rewrite N.shiftl_spec_low by exact Hi; reflexivity).
  all: rewrite <- (N.mod_small b (2 ^ 10)) by exact Hb.
  all: rewrite N.mod_pow2_bits_high by exact Hi; apply andb_false_r.
Qed.

(** The two halves of the pair written for a character above U+FFFF. *)
Lemma surrogate_pair (c : N) :
  0x10000 <= c -> c < 0x110000 ->
  let n := c - 0x10000 in
  N.lor 0xD800 (N.land (N.shiftr n 10) 0x3FF) = 0xD800 + n / 1024
  /\ N.lor 0xDC00 (N.land n 0x3FF) = 0xDC00 + n mod 1024
  /\ n / 1024 < 1024 /\ n mod 1024 < 1024
  /\ 0x10000 + N.lor (N.shiftl (n / 1024) 10) (n mod 1024) = c.
Proof.
  intros Hlo Hhi n.
  assert (Hn : n < 1024 * 1024) by (subst n; lia).
  assert (Hd : n / 1024 < 1024) by (apply N.Div0.div_lt_upper_bound; lia).
  assert (Hm : n mod 1024 < 1024) by (apply N.mod_lt; discriminate).
  change 0x3FF with (N.ones 10). rewrite !N.land_ones.
  rewrite N.shiftr_div_pow2, N.shiftl_mul_pow2.
  change (2 ^ 10) with 1024. rewrite (N.mod_small (n / 1024)) by exact Hd.
  change 0xD800 with (54 * 1024). change 0xDC00 with (55 * 1024).
  rewrite !lor_high_low by assumption.
  repeat split; try assumption.
  pose proof (N.div_mod n 1024 ltac:(lia)). subst n. lia.
Qed.

Lemma read_chars_u (h1 h2 h3 h4 n : N) (r2 : str) :
  unhex4 h1 h2 h3 h4 = Some n ->
  (0xD800 <=? n) && (n <=? 0xDBFF) = false ->
  read_chars (backslash :: 117 :: h1 :: h2 :: h3 :: h4 :: r2)
  = push n (read_chars r2).
Proof.
  intros Hn Hs. cbn [read_chars]. change (backslash =? dquote) with false.
  change (backslash =? backslash) with true. change (117 =? 117) with true.
  cbv iota. rewrite Hn, Hs. reflexivity.
Qed.

Lemma read_chars_pair (h1 h2 h3 h4 l1 l2 l3 l4 n m : N) (r3 : str) :
  unhex4 h1 h2 h3 h4 = Some n ->
  unhex4 l1 l2 l3 l4 = Some m ->
  (0xD800 <=? n) && (n <=? 0xDBFF) = true ->
  (0xDC00 <=? m) && (m <=? 0xDFFF) = true ->
  read_chars (backslash :: 117 :: h1 :: h2 :: h3 :: h4
              :: backslash :: 117 :: l1 :: l2 :: l3 :: l4 :: r3)
  = push (0x10000 + N.lor (N.shiftl (n - 0xD800) 10) (m - 0xDC00))
         (read_chars r3).
Proof.
  intros Hn Hm Hs Ht.
  remember (read_chars r3) as tail eqn:Htail.
  cbn [read_chars]. change (backslash =? dquote) with false.
  change (backslash =? backslash) with true. change (117 =? 117) with true.
  cbv iota. rewrite Hn, Hs, Hm.
  apply andb_prop in Ht. destruct Ht as [Ht1 Ht2].
  rewrite Ht1, Ht2. cbn [andb]. rewrite <- Htail. reflexivity.
Qed.

Lemma read_chars_plain (c : N) (rest : str) :
  c <> dquote -> c <> backslash -> 0x20 <= c ->
  read_chars (c :: rest) = push c (read_chars rest).
Proof.
  intros Hq Hb Hc. cbn [read_chars].
  apply N.eqb_neq in Hq, Hb. rewrite Hq, Hb.
  apply N.ltb_ge in Hc. rewrite Hc. reflexivity.
Qed.

(** Reading the escape of a character gives the character back. *)
Lemma read_chars_escape (c : N) (rest : str) :
  scalar c ->
  read_chars (escape_char c ++ rest) = push c (read_chars rest).
Proof.
  intros Hs. unfold escape_char.
  destruct (N.eqb_spec c dquote) as [->|Hq]; [reflexivity|].
  destruct (N.eqb_spec c backslash) as [->|Hb]; [reflexivity|].
  destruct (N.eqb_spec c 8) as [->|H8]; [reflexivity|].
  destruct (N.eqb_spec c 12) as [->|H12]; [reflexivity|].
  destruct (N.eqb_spec c 10) as [->|H10]; [reflexivity|].
  destruct (N.eqb_spec c 13) as [->|H13]; [reflexivity|].
  destruct (N.eqb_spec c 9) as [->|H9]; [reflexivity|].
  destruct ((0x20 <=? c) && (c <=? 0x7E)) eqn:Hp.
  { apply andb_prop in Hp. destruct Hp as [Hlo _]. apply N.leb_le in Hlo.
    apply read_chars_plain; assumption. }
  destruct (N.ltb_spec c 0x10000) as [Hlt|Hge].
  - change (backslash :: u "u" ++ hex4 c)
      with ([backslash; 117] ++ hex4 c).
    unfold hex4. cbn [app].
    apply read_chars_u; [apply unhex4_hex4; exact Hlt|].
    destruct Hs as [Hs|[Hs _]].
    + apply andb_false_intro1, N.leb_gt. exact Hs.
    + apply andb_false_intro2, N.leb_gt. lia.
  - destruct Hs as [Hs|[_ Hs]]; [lia|].
    destruct (surrogate_pair c Hge Hs) as (H1 & H2 & Hd & Hm & Hc).
    cbv zeta in *. rewrite H1, H2.
    set (n := c - 0x10000) in *.
    change (backslash :: u "u" ++ hex4 (0xD800 + n / 1024)
            ++ backslash :: u "u" ++ hex4 (0xDC00 + n mod 1024))
      with ([backslash; 117] ++ hex4 (0xD800 + n / 1024)
            ++ [backslash; 117] ++ hex4 (0xDC00 + n mod 1024)).
    unfold hex4. cbn [app].
    rewrite (read_chars_pair _ _ _ _ _ _ _ _ (0xD800 + n / 1024)
               (0xDC00 + n mod 1024)).
    + assert (Hsub : forall a b : N, a + b - a = b) by (intros; lia).
      now rewrite !Hsub, Hc.
    + apply unhex4_hex4. revert Hd. generalize (n / 1024). intros; lia.
    + apply unhex4_hex4. revert Hm. generalize (n mod 1024). intros; lia.
    + revert Hd. generalize (n / 1024). intros.
      apply andb_true_intro. split; apply N.leb_le; lia.
    + revert Hm. generalize (n mod 1024). intros.
      apply andb_true_intro. split; apply N.leb_le; lia.
Qed.

Lemma read_chars_string (s rest : str) :
  Forall scalar s ->
  read_chars (flat_map escape_char s ++ dquote :: rest) = Some (s, rest).
Proof.
  induction 1 as [|c s Hc _ IH]; [reflexivity|].
  cbn [flat_map]. rewrite <- app_assoc, read_chars_escape by exact Hc.
  now rewrite IH.
Qed.

Lemma join_cons (sep x : str) (l : list str) :
  join sep (x :: l) = x ++ flat_map (fun y => sep ++ y) l.
Proof.
  revert x. induction l as [|y l IH]; intros x.
  - simpl. now rewrite app_nil_r.
  - change (join sep (x :: y :: l)) with (x ++ sep ++ join sep (y :: l)).
    rewrite IH. cbn [flat_map]. now rewrite <- app_assoc.
Qed.

Lemma json_dumps_cons (x : str) (l : list str) :
  json_dumps_indent2 (x :: l)
  = 91 :: 10 :: 32 :: 32 :: dquote
    :: flat_map escape_char x ++ dquote :: items_tail l.
Proof.
  change (json_dumps_indent2 (x :: l))
    with ([91; 10; 32; 32]
          ++ join [44; 10; 32; 32] (map encode_basestring_ascii (x :: l))
          ++ [10; 93]).
  cbn [map]. rewrite join_cons. unfold items_tail.
  assert (E : flat_map (fun y => [44; 10; 32; 32] ++ y)
                       (map encode_basestring_ascii l)
              = flat_map (fun y => 44 :: 10 :: 32 :: 32 :: dquote
                                   :: flat_map escape_char y ++ [dquote]) l).
  { induction l as [|y l IH]; [reflexivity|].
    cbn [map flat_map]. now rewrite IH. }
  rewrite E. unfold encode_basestring_ascii. cbn [app].
  now rewrite <- !app_assoc.
Qed.

Lemma items_tail_length (l : list str) :
  (List.length l < List.length (items_tail l))%nat.
Proof.
  unfold items_tail. rewrite length_app. cbn [List.length].
  enough (Nat.le (List.length l)
            (List.length
               (flat_map (fun x => 44 :: 10 :: 32 :: 32 :: dquote
                                   :: flat_map escape_char x ++ [dquote]) l)))
    by lia.
  induction l as [|x l IH]; [apply Nat.le_refl|].
  cbn [flat_map]. rewrite length_app. cbn [List.length]. lia.
Qed.

Lemma items_tail_cons (x : str) (l : list str) :
  items_tail (x :: l)
  = 44 :: 10 :: 32 :: 32 :: dquote
    :: flat_map escape_char x ++ dquote :: items_tail l.
Proof.
  unfold items_tail. cbn [flat_map app]. now rewrite <- !app_assoc.
Qed.

Lemma read_items_comma (fuel : nat) (r1 : str) :
  read_items (S fuel) (44 :: 10 :: 32 :: 32 :: dquote :: r1)
  = match read_chars r1 with
    | Some (x, r2) => option_map (cons x) (read_items fuel r2)
    | None => None
    end.
Proof. reflexivity. Qed.

Lemma read_items_tail (l : list str) (fuel : nat) :
  Forall (Forall scalar) l ->
  (List.length l < fuel)%nat ->
  read_items fuel (items_tail l) = Some l.
Proof.
  intros H. revert fuel.
  induction H as [|x l Hx _ IH]; intros fuel Hf.
  - destruct fuel as [|fuel]; [lia|]. reflexivity.
  - destruct fuel as [|fuel]; [cbn [List.length] in Hf; lia|].
    rewrite items_tail_cons, read_items_comma.
    rewrite read_chars_string by exact Hx.
    rewrite IH by (cbn [List.length] in Hf; lia). reflexivity.
Qed.

Lemma json_loads_open (r1 : str) :
  json_loads (91 :: 10 :: 32 :: 32 :: dquote :: r1)
  = match read_chars r1 with
    | Some (x, r2) => option_map (cons x) (read_items (S (List.length r2)) r2)
    | None => None
    end.
Proof. reflexivity. Qed.

(** Reading back what [json.dumps] wrote gives the list, in its order. *)
Lemma json_loads_dumps (l : list str) :
  Forall (Forall scalar) l ->
  json_loads (json_dumps_indent2 l) = Some l.
Proof.
  intros H. destruct H as [|x l Hx Hl]; [reflexivity|].
  rewrite json_dumps_cons, json_loads_open.
  rewrite read_chars_string by exact Hx.
  rewrite read_items_tail; [reflexivity | exact Hl |].
  pose proof (items_tail_length l). lia.
Qed.

(** ** The plain list read back *)

Lemma split_on_app (c : N) (x rest : str) :
  ~ In c x -> split_on c (x ++ c :: rest) = x :: split_on c rest.
Proof.
  induction x as [|a x IH]; intros Hx.
  - cbn [app split_on]. now rewrite N.eqb_refl.
  - cbn [app split_on]. destruct (N.eqb_spec a c) as [->|_].
    + destruct Hx. now left.
    + rewrite IH; [reflexivity|]. intros Hin. apply Hx. now right.
Qed.

Lemma split_on_single (c : N) (x : str) : ~ In c x -> split_on c x = [x].
Proof.
  induction x as [|a x IH]; intros Hx; [reflexivity|].
  cbn [split_on]. destruct (N.eqb_spec a c) as [->|_].
  - destruct Hx. now left.
  - rewrite IH; [reflexivity|]. intros Hin. apply Hx. now right.
Qed.

(** Splitting the joined lines at the newlines gives the list back. *)
Lemma split_on_join (c : N) (x : str) (l : list str) :
  Forall (fun k => ~ In c k) (x :: l) ->
  split_on c (join [c] (x :: l)) = x :: l.
Proof.
  revert x. induction l as [|y l IH]; intros x H;
    inversion H as [|? ? Hx Hr]; subst.
  - now apply split_on_single.
  - change (join [c] (x :: y :: l)) with (x ++ c :: join [c] (y :: l)).
    now rewrite split_on_app, IH.
Qed.

(** ** Deciding the side conditions on keys *)

Lemma scalarb_scalar (l : list str) :
  forallb (forallb scalarb) l = true -> Forall (Forall scalar) l.
Proof.
  intros H. apply Forall_forall. intros k Hk. apply Forall_forall.
  intros c Hc. rewrite forallb_forall in H. specialize (H k Hk).
  rewrite forallb_forall in H. specialize (H c Hc).
  unfold scalarb in H. unfold scalar.
  apply orb_prop in H. destruct H as [H|H].
  - left. now apply N.ltb_lt.
  - right. apply andb_prop in H. destruct H as [H1 H2].
    split; [now apply N.leb_le | now apply N.ltb_lt].
Qed.

Lemma no_char_in (c : N) (l : list str) :
  forallb (forallb (fun x => negb (x =? c))) l = true ->
  Forall (fun key => ~ In c key) l.
Proof.
  intros H. apply Forall_forall. intros k Hk Hin.
  rewrite forallb_forall in H. specialize (H k Hk).
  rewrite forallb_forall in H. specialize (H c Hin).
  now rewrite N.eqb_refl in H.
Qed.

(** ** More on [strip] and [filter_keys] *)

Lemma lstrip_fixed (s : str) : no_space_head s -> lstrip s = s.
Proof.
  destruct s as [|c r]; [reflexivity|]. simpl. now intros ->.
Qed.

Lemma lstrip_app_space (ws s : str) :
  forallb isspace ws = true -> lstrip (ws ++ s) = lstrip s.
Proof.
  induction ws as [|c ws IH]; intros H; [reflexivity|].
  simpl in H. apply andb_prop in H. destruct H as [Hc Hw].
  simpl. rewrite Hc. now apply IH.
Qed.

Lemma lstrip_decompose (s : str) :
  exists ws, s = ws ++ lstrip s /\ forallb isspace ws = true.
Proof.
  induction s as [|c r (ws & E & H)]; [now exists []|].
  simpl. destruct (isspace c) eqn:Hc.
  - exists (c :: ws). simpl. rewrite Hc, H. split; [now f_equal | reflexivity].
  - now exists [].
Qed.

Lemma no_space_head_app (s t : str) :
  s <> [] -> no_space_head (s ++ t) -> no_space_head s.
Proof.
  destruct s as [|c r]; [congruence|]. now simpl.
Qed.

Lemma strip_is_trimmed (s : str) : trimmed (strip s).
Proof.
  unfold trimmed, strip, rstrip. rewrite rev_involutive.
  split; [|apply lstrip_head].
  destruct (lstrip_decompose (rev (lstrip s))) as (ws & E & _).
  apply (f_equal (@rev N)) in E. rewrite rev_involutive, rev_app_distr in E.
  destruct (rev (lstrip (rev (lstrip s)))) as [|c r] eqn:R; [exact I|].
  pose proof (lstrip_head s) as Hh. rewrite E in Hh. exact Hh.
Qed.

Lemma trimmed_strip (s : str) : trimmed s -> strip s = s.
Proof.
  intros [Hh Hl]. unfold strip, rstrip.
  rewrite (lstrip_fixed s Hh), (lstrip_fixed (rev s) Hl).
  apply rev_involutive.
Qed.

Lemma trimmed_not_blank (s : str) : s <> [] -> trimmed s -> blank s = false.
Proof.
  intros Hn [Hh _]. destruct s as [|c r]; [congruence|].
  unfold blank. simpl in *. now rewrite Hh.
Qed.

Lemma truthy_strip (s : str) : truthy (strip s) = negb (blank s).
Proof.
  destruct (blank s) eqn:B.
  - apply strip_nil_iff in B. now rewrite B.
  - destruct (strip s) eqn:S; [|reflexivity].
    apply strip_nil_iff in S. congruence.
Qed.

(** Whitespace around a trimmed string is what [strip] removes. *)
Lemma strip_padded (ws1 k ws2 : str) :
  forallb isspace ws1 = true -> forallb isspace ws2 = true ->
  k <> [] -> trimmed k ->
  strip (ws1 ++ k ++ ws2) = k.
Proof.
  intros H1 H2 Hn [Hh Hl]. unfold strip, rstrip.
  rewrite lstrip_app_space by exact H1.
  rewrite (lstrip_fixed (k ++ ws2))
    by (destruct k; [congruence | exact Hh]).
  rewrite rev_app_distr, lstrip_app_space by (now rewrite forallb_rev).
  rewrite (lstrip_fixed (rev k)) by exact Hl. apply rev_involutive.
Qed.

Lemma filter_keys_cons (line : str) (lines : list str) :
  filter_keys (line :: lines)
  = if blank line then filter_keys lines
    else strip line :: filter_keys lines.
Proof.
  unfold filter_keys. simpl. rewrite truthy_strip.
  now destruct (blank line).
Qed.

Lemma filter_keys_trimmed (lines : list str) :
  Forall (fun key => key <> [] /\ trimmed key) (filter_keys lines).
Proof.
  induction lines as [|line lines IH]; [constructor|].
  rewrite filter_keys_cons. destruct (blank line) eqn:B; [exact IH|].
  constructor; [|exact IH]. split; [|apply strip_is_trimmed].
  intros E. apply strip_nil_iff in E. congruence.
Qed.

Lemma filter_keys_padded (ws1 ws2 : str) (keys : list str) :
  forallb isspace ws1 = true -> forallb isspace ws2 = true ->
  Forall (fun key => key <> [] /\ trimmed key) keys ->
  filter_keys (map (fun key => ws1 ++ key ++ ws2) keys) = keys.
Proof.
  intros H1 H2 H. induction H as [|k keys [Hn Ht] _ IH]; [reflexivity|].
  cbn [map]. rewrite filter_keys_cons.
  pose proof (strip_padded ws1 k ws2 H1 H2 Hn Ht) as S.
  destruct (blank (ws1 ++ k ++ ws2)) eqn:B.
  - apply strip_nil_iff in B. congruence.
  - now rewrite S, IH.
Qed.

(** ** The input stage *)

Lemma read_keys_Keys (lines keys : list str) :
  read_keys lines = Keys keys -> keys = filter_keys lines /\ keys <> [].
Proof.
  unfold read_keys, stop. destruct (filter_keys lines) as [|k ks];
    [discriminate|].
  intros H. injection H as <-. split; [reflexivity | discriminate].
Qed.

Lemma read_input_Keys (w : World) (args : Args) (keys : list str) :
  read_input w args = Keys keys ->
  exists lines, keys = filter_keys lines /\ keys <> []
                /\ read_input w args = read_keys lines.
Proof.
  unfold read_input. intros H.
  destruct (given (input_file args)) as [path|].
  - destruct (open_r w path) as [lines| |e]; try discriminate H.
    exists lines. destruct (read_keys_Keys lines keys H) as [-> Hn].
    repeat split; assumption.
  - destruct (stdin_isatty w); [discriminate H|].
    exists (stdin_lines w).
    destruct (read_keys_Keys _ keys H) as [-> Hn].
    repeat split; assumption.
Qed.

Lemma read_input_keys_trimmed (w : World) (args : Args) (keys : list str) :
  read_input w args = Keys keys ->
  Forall (fun key => key <> [] /\ trimmed key) keys.
Proof.
  intros H. destruct (read_input_Keys w args keys H) as (lines & -> & _).
  apply filter_keys_trimmed.
Qed.



(** ** The requests of a run *)

Lemma submit_all_sent (w : World) (m : str) (i : nat) (keys : list str) :
  Forall (fun key => blank key = false) keys ->
  map fut_sent (submit_all w m i keys)
  = map (fun key => [probe_request key m]) keys.
Proof.
  intros H. revert i. induction H as [|k keys Hk _ IH]; intros i;
    [reflexivity|].
  cbn [submit_all map fut_sent]. now rewrite check_key_sends, IH.
Qed.

Lemma check_key_ext (s1 s2 : service) (api_key model_name : str) :
  s1 (probe_request api_key model_name) = s2 (probe_request api_key model_name) ->
  check_key s1 api_key model_name = check_key s2 api_key model_name.
Proof.
  intros H. unfold check_key. now rewrite H.
Qed.

Lemma submit_all_ext (w1 w2 : World) (m : str) (i : nat) (keys : list str) :
  (forall j rq, srv w1 j rq = srv w2 j rq) ->
  submit_all w1 m i keys = submit_all w2 m i keys.
Proof.
  intros H. revert i. induction keys as [|k keys IH]; intros i;
    [reflexivity|].
  cbn [submit_all]. rewrite (check_key_ext (srv w1 i) (srv w2 i)) by apply H.
  now rewrite IH.
Qed.

(** ** The loop and the order of completion *)

Lemma collect_Raise_in (ys : list future) (valid_keys err err' : list str)
    (x : exc) :
  collect ys valid_keys err = (Raise x, err') ->
  exists f, In f ys /\ fut_outcome f = Raise x.
Proof.
  revert valid_keys err. induction ys as [|f ys IH]; intros valid_keys err H.
  - discriminate H.
  - simpl in H. destruct (fut_outcome f) as [[[key b] reason]|e] eqn:Hf.
    + destruct b; apply IH in H; destruct H as (g & Hg & Hx);
        exists g; split; auto; now right.
    + injection H as <- _. exists f. split; [now left | exact Hf].
Qed.

(** A prefix of tasks that all returned is folded into the state. *)
Lemma collect_app_returned (before rest : list future)
    (valid_keys err : list str) :
  Forall returned before ->
  collect (before ++ rest) valid_keys err
  = collect rest
      (valid_keys ++ map fut_result_key (filter fut_valid before))
      (err ++ map fut_line (filter fut_invalid before)).
Proof.
  intros H. revert valid_keys err.
  induction H as [|f ys [[[key v] reason] Hf] _ IH]; intros valid_keys err.
  - cbn [app filter map]. now rewrite !app_nil_r.
  - assert (Hv : fut_valid f = v)
      by (unfold fut_valid; rewrite Hf; now destruct v).
    assert (Hi : fut_invalid f = negb v)
      by (unfold fut_invalid; rewrite Hf; now destruct v).
    assert (Hk : fut_result_key f = key)
      by (unfold fut_result_key; now rewrite Hf).
    assert (Hl : fut_line f = failure_line key reason)
      by (unfold fut_line; now rewrite Hf).
    cbn [app collect filter]. rewrite Hf, Hv, Hi.
    destruct v; rewrite IH; cbn [negb map]; rewrite ?Hk, ?Hl, <- ?app_assoc;
      reflexivity.
Qed.

Lemma filter_perm {A} (p : A -> bool) (l l' : list A) :
  Permutation l l' -> Permutation (filter p l) (filter p l').
Proof.
  induction 1 as [|a l l' _ IH|a b l|l l' l'' _ IH1 _ IH2]; simpl.
  - constructor.
  - destruct (p a); [now constructor | exact IH].
  - destruct (p a), (p b); try apply Permutation_refl. apply perm_swap.
  - eapply Permutation_trans; eassumption.
Qed.

Lemma returned_perm (l l' : list future) :
  Permutation l l' -> Forall returned l -> Forall returned l'.
Proof.
  intros Hp H. rewrite Forall_forall in *. intros f Hin. apply H.
  eapply Permutation_in; [apply Permutation_sym, Hp | exact Hin].
Qed.

(** ** Truthiness of the formatted output *)

Lemma format_output_truthy (fmt : Format) (k : str) (ks : list str) :
  k <> [] -> truthy (format_output fmt (k :: ks)) = true.
Proof.
  intros Hk. destruct fmt.
  - cbn [format_output]. rewrite join_cons. now destruct k.
  - cbn [format_output]. now rewrite json_dumps_cons.
Qed.

Lemma join_lines (k : str) (ks : list str) :
  join [10] (k :: ks) ++ [10] = flat_map (fun key => key ++ [10]) (k :: ks).
Proof.
  revert k. induction ks as [|y ks IH]; intros k.
  - simpl. now rewrite app_nil_r.
  - change (join [10] (k :: y :: ks)) with (k ++ [10] ++ join [10] (y :: ks)).
    rewrite <- !app_assoc, IH. cbn [flat_map]. now rewrite <- !app_assoc.
Qed.

(** ** The characters of the JSON text *)

Lemma hex_digit_ascii (d : N) : d < 16 -> json_ascii (hex_digit d).
Proof.
  intros H. unfold hex_digit, json_ascii.
  destruct (N.ltb_spec d 10); right; lia.
Qed.

Lemma hex4_ascii (n : N) (rest : str) :
  Forall json_ascii rest -> Forall json_ascii (hex4 n ++ rest).
Proof.
  intros H. unfold hex4. cbn [app].
  repeat (apply Forall_cons;
          [apply hex_digit_ascii, N.mod_lt; discriminate|]).
  exact H.
Qed.

Lemma escape_char_ascii (c : N) : Forall json_ascii (escape_char c).
Proof.
  assert (B : forall rest, Forall json_ascii rest ->
                           Forall json_ascii (backslash :: u "u" ++ rest)).
  { intros rest H. change (backslash :: u "u" ++ rest) with (92 :: 117 :: rest).
    repeat (apply Forall_cons; [unfold json_ascii; lia|]). exact H. }
  unfold escape_char.
  repeat match goal with
         | |- context [if ?b =? ?k then _ else _] =>
           destruct (b =? k);
           [match goal with
            | |- Forall json_ascii ?l =>
              let l' := eval vm_compute in l in change (Forall json_ascii l')
            end;
            repeat (apply Forall_cons; [unfold json_ascii; lia|]);
            apply Forall_nil|]
         end.
  destruct ((0x20 <=? c) && (c <=? 0x7E)) eqn:E.
  - apply andb_prop in E. destruct E as [E1 E2].
    apply N.leb_le in E1, E2.
    apply Forall_cons; [right; split; assumption | apply Forall_nil].
  - destruct (c <? 0x10000).
    + apply B. rewrite <- (app_nil_r (hex4 c)). now apply hex4_ascii.
    + apply B, hex4_ascii, B.
      rewrite <- (app_nil_r (hex4 _)). now apply hex4_ascii.
Qed.

Lemma encode_ascii (s : str) : Forall json_ascii (encode_basestring_ascii s).
Proof.
  unfold encode_basestring_ascii.
  apply Forall_cons; [unfold json_ascii, dquote; lia|].
  apply Forall_app. split.
  - induction s as [|c s IH]; [constructor|].
    cbn [flat_map]. apply Forall_app. split; [apply escape_char_ascii | exact IH].
  - apply Forall_cons; [unfold json_ascii, dquote; lia | apply Forall_nil].
Qed.

(** * The claims *)

(** C1. After a run whose loop has ended normally, the submitted tasks
    split into those whose key was appended to [valid_keys] and those for
    which a failure line was written: the two groups together are the
    submitted tasks, each exactly once (their indices are distinct), no task
    is in both groups, and the number of valid keys plus the number of
    failure lines is the number of input keys. *)
Theorem valid_invalid_partition (w : World) (args : Args)
    (keys valid_keys err : list str) :
  let futs := submit_all w (model args) 0 keys in
  Permutation (as_completed w futs) futs ->
  check_all w args keys = (Return valid_keys, err) ->
  exists valid invalid : list future,
    Permutation (valid ++ invalid) futs
    /\ NoDup (map fut_index (valid ++ invalid))
    /\ Forall (fun f => fut_valid f = true /\ fut_invalid f = false) valid
    /\ Forall (fun f => fut_invalid f = true /\ fut_valid f = false) invalid
    /\ valid_keys = map fut_key valid
    /\ err = banner keys args :: map fut_line invalid
    /\ (List.length valid_keys + List.length (map fut_line invalid)
        = List.length keys)%nat.
Proof.
  intros futs Hp Hc.
  destruct (check_all_completed w args keys valid_keys err Hp Hc)
    as (Hf & Hv & He). fold futs in Hf, Hv, He.
  set (ys := as_completed w futs) in *.
  assert (Hy : Forall returned ys).
  { rewrite Forall_forall in *. intros f Hin. apply Hf.
    eapply Permutation_in; [exact Hp | exact Hin]. }
  assert (Hsplit : Permutation (filter fut_valid ys ++ filter fut_invalid ys)
                               futs).
  { eapply Permutation_trans; [|exact Hp]. apply filter_split_perm.
    eapply Forall_impl; [|exact Hy]. apply returned_valid_invalid. }
  exists (filter fut_valid ys), (filter fut_invalid ys).
  split; [exact Hsplit|]. split.
  { eapply Permutation_NoDup.
    - apply Permutation_sym, Permutation_map, Hsplit.
    - unfold futs. rewrite submit_all_index. apply seq_NoDup. }
  split.
  { apply Forall_forall. intros f Hin. apply filter_In in Hin.
    destruct Hin as [Hin Hvf]. split; [exact Hvf|].
    rewrite Forall_forall in Hy.
    rewrite (returned_valid_invalid f (Hy f Hin)), Hvf. reflexivity. }
  split.
  { apply Forall_forall. intros f Hin. apply filter_In in Hin.
    destruct Hin as [Hin Hif]. split; [exact Hif|].
    rewrite Forall_forall in Hy.
    rewrite (returned_valid_invalid f (Hy f Hin)) in Hif.
    now destruct (fut_valid f). }
  split; [exact Hv|]. split; [exact He|].
  rewrite Hv, !length_map, <- length_app.
  rewrite (Permutation_length Hsplit). apply submit_all_length.
Qed.

Lemma valid_invalid_partition_witness :
  exists valid invalid : list future,
    Permutation (valid ++ invalid) (submit_all w_abc flash_lite 0 keys_abc)
    /\ NoDup (map fut_index (valid ++ invalid))
    /\ Forall (fun f => fut_valid f = true /\ fut_invalid f = false) valid
    /\ Forall (fun f => fut_invalid f = true /\ fut_valid f = false) invalid
    /\ [key_a; key_a] = map fut_key valid
    /\ snd (check_all w_abc default_args keys_abc)
       = banner keys_abc default_args :: map fut_line invalid
    /\ (List.length [key_a; key_a] + List.length (map fut_line invalid)
        = List.length keys_abc)%nat.
Proof.
  apply (valid_invalid_partition w_abc default_args keys_abc
           [key_a; key_a] (snd (check_all w_abc default_args keys_abc))).
  - apply Permutation_sym, Permutation_rev.
  - vm_compute. reflexivity.
Defined.

(** C2 (as amended). [check_key] follows the taxonomy in its precedence
    order: on every key and every result of the probe that it turns into a
    tuple, the tuple is invalid unless the code is VALID, its reason carries
    exactly the code the specification's classifier gives, the
    INVALID_ARGUMENT detail shows the model name, the SERVICE_ERROR detail
    the status code and the type name, the UNKNOWN_ERROR detail the type
    name. The one result it does not turn into a tuple is an exception that
    is an instance of none of the five classes: that one propagates. *)
Theorem check_key_classifies (srv : service) (api_key model_name : str) :
  let raw := srv (probe_request api_key model_name) in
  let c := classify api_key raw in
  match fst (check_key srv api_key model_name) with
  | Return (key, is_valid, reason) =>
    key = api_key /\ is_valid = is_VALID c /\ codes_of reason = [c]
    /\ detail_ok c raw model_name reason
  | Raise e => blank api_key = false /\ raw = Raise e /\ caught e = false
  end.
Proof.
  exact (check_key_cases srv api_key model_name).
Qed.

(** C2 as stated fails: an interrupted probe is a non-service exception,
    which the specification's classifier maps to UNKNOWN_ERROR, but
    [check_key] returns no tuple for it. *)
Lemma classify_total_counterexample :
  classify key_a (srv_interrupted (probe_request key_a flash_lite))
  = UNKNOWN_ERROR
  /\ fst (check_key srv_interrupted key_a flash_lite) = Raise KeyboardInterrupt
  /\ ~ (exists is_valid reason,
          fst (check_key srv_interrupted key_a flash_lite)
          = Return (key_a, is_valid, reason)).
Proof.
  split; [reflexivity|]. split; [reflexivity|].
  intros (v & reason & H). discriminate H.
Qed.

(** C3 (as amended). When the exceptions raised by the probes are
    instances of [Exception], no [check_key] call propagates one: each
    returns the tuple of its key, with [False] whenever the probe raised;
    every submitted task returns, and the run ends with status 0. *)
Theorem failures_returned_as_data (w : World) (args : Args)
    (keys : list str) :
  let futs := submit_all w (model args) 0 keys in
  (forall i rq e, srv w i rq = Raise e -> exc_isinstance e Exception = true) ->
  Permutation (as_completed w futs) futs ->
  read_input w args = Keys keys ->
  (0 < workers args)%Z ->
  (forall i api_key model_name,
      exists is_valid reason,
        fst (check_key (srv w i) api_key model_name)
        = Return (api_key, is_valid, reason)
        /\ (forall e, srv w i (probe_request api_key model_name) = Raise e ->
                      is_valid = false))
  /\ Forall returned futs
  /\ status (main w args) = Exit 0.
Proof.
  intros futs He Hp Hr Hw. split; [|split].
  - intros i api_key model_name.
    destruct (check_key_caught (srv w i) api_key model_name)
      as (v & reason & Hk & Hv).
    { intros e Hraise. apply caught_Exception, (He _ _ _ Hraise). }
    exists v, reason. split; [exact Hk|].
    intros e Hraise. destruct v; [|reflexivity].
    rewrite (Hv eq_refl) in Hraise. discriminate.
  - apply submitted_returned, He.
  - destruct (check_all_returned w args keys Hp) as (v & err & Hc).
    { apply submitted_returned, He. }
    now rewrite (main_completed w args keys v err Hr Hw Hc).
Qed.

Lemma failures_returned_as_data_witness :
  (forall i api_key model_name,
      exists is_valid reason,
        fst (check_key (srv w_abc i) api_key model_name)
        = Return (api_key, is_valid, reason)
        /\ (forall e,
               srv w_abc i (probe_request api_key model_name) = Raise e ->
               is_valid = false))
  /\ Forall returned (submit_all w_abc (model default_args) 0 keys_abc)
  /\ status (main w_abc default_args) = Exit 0.
Proof.
  apply (failures_returned_as_data w_abc default_args keys_abc).
  - intros i rq e. simpl. unfold srv_ab.
    destruct (startswith (rq_api_key rq) key_a); [discriminate|].
    destruct (startswith (rq_api_key rq) key_b);
      intros H; injection H as <-; reflexivity.
  - apply Permutation_sym, Permutation_rev.
  - reflexivity.
  - reflexivity.
Defined.

(** C3 as stated fails: a probe that raises [SystemExit], which is not an
    [Exception], makes [check_key] raise, and the run that meets it ends
    with that exception, the valid key of the batch never printed. *)
Lemma uncaught_exception_counterexample :
  fst (check_key srv_exiting key_b flash_lite) = Raise SystemExit
  /\ read_input w_exit default_args = Keys [key_a; key_b; key_c]
  /\ map fut_valid (submitted (main w_exit default_args))
     = [true; false; false]
  /\ status (main w_exit default_args) = Uncaught SystemExit
  /\ stdout (main w_exit default_args) = [].
Proof.
  repeat split.
Qed.

(** C4. A key that is empty or only whitespace gets the EMPTY outcome at
    once, whatever the service would answer, and no request is sent. *)
Theorem blank_key_no_probe (srv : service) (api_key model_name : str) :
  blank api_key = true ->
  check_key srv api_key model_name
  = (Return (api_key, false, u "Key is empty"), [])
  /\ codes_of (u "Key is empty") = [EMPTY].
Proof.
  intros B. split; [apply check_key_blank, B | reflexivity].
Qed.

Lemma blank_key_no_probe_witness :
  blank [32; 9; 0x3000; 10] = true
  /\ check_key srv_ab [32; 9; 0x3000; 10] flash_lite
     = (Return ([32; 9; 0x3000; 10], false, u "Key is empty"), [])
  /\ codes_of (u "Key is empty") = [EMPTY].
Proof.
  split; [reflexivity|].
  apply (blank_key_no_probe srv_ab [32; 9; 0x3000; 10] flash_lite).
  reflexivity.
Defined.

(** C5. Once the input is read and the pool exists, the tasks submitted
    are the filtered input keys in their order, one task per list element
    with its own index, duplicates included; each task is the [check_key]
    call on its key. *)
Theorem one_task_per_key (w : World) (args : Args) (lines : list str) :
  read_input w args = read_keys lines ->
  (0 < workers args)%Z ->
  let tasks := submitted (main w args) in
  map fut_key tasks = filter_keys lines
  /\ map fut_index tasks = seq 0 (List.length (filter_keys lines))
  /\ List.length tasks = List.length (filter_keys lines)
  /\ Forall (fun f => fut_outcome f
                      = fst (check_key (srv w (fut_index f)) (fut_key f)
                                       (model args))) tasks.
Proof.
  intros Hr Hw tasks. subst tasks. unfold read_keys in Hr.
  destruct (filter_keys lines) as [|k ks] eqn:Hk.
  - unfold main. rewrite Hr. simpl. repeat split. constructor.
  - destruct (main_submitted w args (k :: ks) Hr Hw) as [-> _].
    rewrite submit_all_keys, submit_all_index, submit_all_length.
    repeat split.
    eapply Forall_impl; [|apply submit_all_outcome]. intros f [H _]. exact H.
Qed.

Lemma one_task_per_key_witness :
  let tasks := submitted (main w_abc default_args) in
  map fut_key tasks = filter_keys (stdin_lines w_abc)
  /\ map fut_index tasks
     = seq 0 (List.length (filter_keys (stdin_lines w_abc)))
  /\ List.length tasks = List.length (filter_keys (stdin_lines w_abc))
  /\ Forall (fun f => fut_outcome f
                      = fst (check_key (srv w_abc (fut_index f)) (fut_key f)
                                       (model default_args))) tasks.
Proof.
  apply (one_task_per_key w_abc default_args (stdin_lines w_abc)).
  - reflexivity.
  - reflexivity.
Defined.

(** C7. When no key is left after the blank lines are filtered out, the
    run stops at once: no pool is created, no task is submitted, nothing
    is printed on standard output or written to a file, one notice goes to
    the diagnostic stream and the status is 0. *)
Theorem empty_input_stops (w : World) (args : Args) (lines : list str) :
  read_input w args = read_keys lines ->
  filter_keys lines = [] ->
  main w args
  = {| stdout := []; stderr := [u "输入中未找到任何有效的 API Key。"];
       written := []; executors := []; submitted := []; status := Exit 0 |}.
Proof.
  intros Hr Hk. unfold main. rewrite Hr. unfold read_keys. rewrite Hk.
  reflexivity.
Qed.

Lemma empty_input_stops_witness :
  filter_keys (stdin_lines w_blank) = []
  /\ main w_blank default_args
     = {| stdout := []; stderr := [u "输入中未找到任何有效的 API Key。"];
          written := []; executors := []; submitted := [];
          status := Exit 0 |}.
Proof.
  split; [reflexivity|].
  apply (empty_input_stops w_blank default_args (stdin_lines w_blank));
    reflexivity.
Defined.

(** C9 (as amended). In a run that reaches the checks and ends its loop,
    the diagnostic stream holds the opening banner, which shows the total
    number of keys, then one line per invalid outcome in completion order,
    made of the first eight characters of the key and the reason with its
    code, then the final summary: the number of valid keys, or, when there
    is none, a sentence without any count. The run ends with status 0. *)
Theorem failures_and_summary_reported (w : World) (args : Args)
    (keys valid_keys err : list str) :
  let futs := submit_all w (model args) 0 keys in
  let invalid := filter fut_invalid (as_completed w futs) in
  let out := write_output w args (format_output (format args) valid_keys) in
  Permutation (as_completed w futs) futs ->
  read_input w args = Keys keys ->
  (0 < workers args)%Z ->
  check_all w args keys = (Return valid_keys, err) ->
  stderr (main w args)
  = banner keys args :: map fut_line invalid
    ++ summary valid_keys :: snd (fst out)
  /\ Forall (fun f =>
       exists reason,
         fut_outcome f = Return (fut_key f, false, reason)
         /\ fut_line f = u "  -> Key [" ++ firstn 8 (fut_key f)
                         ++ u "...] 失败: " ++ reason
         /\ codes_of reason
            = [classify (fut_key f)
                 (srv w (fut_index f)
                      (probe_request (fut_key f) (model args)))]) invalid
  /\ contains (banner keys args) (len keys) = true
  /\ summary valid_keys
     = match valid_keys with
       | [] => 10 :: u "检查完成，未找到可用的 Key。"
       | _ :: _ =>
         10 :: u "检查完成，找到 " ++ len valid_keys ++ u " 个可用的 Key。"
       end
  /\ status (main w args) = Exit 0.
Proof.
  intros futs invalid out Hp Hr Hw Hc.
  destruct (check_all_completed w args keys valid_keys err Hp Hc)
    as (_ & _ & He). fold futs in He. fold invalid in He.
  rewrite (main_completed w args keys valid_keys err Hr Hw Hc).
  cbn [stderr status]. fold out. split; [|split; [|split; [|split]]].
  - rewrite He. reflexivity.
  - apply Forall_forall. intros f Hin. apply filter_In in Hin.
    destruct Hin as [Hin Hinv].
    apply (Permutation_in f Hp) in Hin.
    pose proof (submit_all_outcome w (model args) 0 keys) as Ho.
    rewrite Forall_forall in Ho. destruct (Ho f Hin) as [Hf _].
    pose proof (check_key_cases (srv w (fut_index f)) (fut_key f) (model args))
      as C. cbv zeta in C. rewrite <- Hf in C.
    unfold fut_invalid in Hinv. unfold fut_line.
    destruct (fut_outcome f) as [[[key v] reason]|e]; [|discriminate].
    destruct v; [discriminate|]. destruct C as (-> & _ & Hcode & _).
    exists reason. repeat split. exact Hcode.
  - unfold banner. apply contains_app.
  - destruct valid_keys; reflexivity.
  - reflexivity.
Qed.

Lemma failures_and_summary_reported_witness :
  stderr (main w_abc default_args)
  = banner keys_abc default_args
    :: map fut_line
         (filter fut_invalid
            (as_completed w_abc (submit_all w_abc flash_lite 0 keys_abc)))
    ++ [summary [key_a; key_a]]
  /\ contains (banner keys_abc default_args) (len keys_abc) = true
  /\ status (main w_abc default_args) = Exit 0.
Proof.
  destruct (failures_and_summary_reported w_abc default_args keys_abc
              [key_a; key_a] (snd (check_all w_abc default_args keys_abc)))
    as (H1 & _ & H3 & _ & H5).
  - apply Permutation_sym, Permutation_rev.
  - reflexivity.
  - reflexivity.
  - vm_compute. reflexivity.
  - split; [exact H1|]. split; [exact H3 | exact H5].
Defined.

(** C9 as stated fails: the final summary does not show the total. With
    four keys of which two are valid it shows only the two; with three keys
    of which none is valid it shows no number at all. *)
Lemma summary_without_total_counterexample :
  List.length (submitted (main w_abc default_args)) = 4%nat
  /\ last (stderr (main w_abc default_args)) []
     = 10 :: u "检查完成，找到 2 个可用的 Key。"
  /\ contains (last (stderr (main w_abc default_args)) []) (str_of_Z 4)
     = false
  /\ List.length (submitted (main w_none default_args)) = 3%nat
  /\ last (stderr (main w_none default_args)) []
     = 10 :: u "检查完成，未找到可用的 Key。"
  /\ contains (last (stderr (main w_none default_args)) []) (str_of_Z 3)
     = false
  /\ contains (last (stderr (main w_none default_args)) []) (str_of_Z 0)
     = false.
Proof.
  repeat split; vm_compute; reflexivity.
Qed.

(** C10. Whatever the service answers, the tuple [check_key] returns has
    the key it was given as its first component; so the keys collected by a
    run are input keys, each taken from a task of its own: together with
    the keys of the other tasks they make up the input list. *)
Theorem key_returned_unchanged (w : World) (args : Args)
    (keys valid_keys err : list str)
    (srv : service) (api_key model_name : str) :
  let futs := submit_all w (model args) 0 keys in
  Permutation (as_completed w futs) futs ->
  check_all w args keys = (Return valid_keys, err) ->
  match fst (check_key srv api_key model_name) with
  | Return (key, _, _) => key = api_key
  | Raise e => srv (probe_request api_key model_name) = Raise e
  end
  /\ incl valid_keys keys
  /\ exists others, Permutation (valid_keys ++ others) keys.
Proof.
  intros futs Hp Hc. split; [|split].
  - pose proof (check_key_cases srv api_key model_name) as C. cbv zeta in C.
    destruct (fst (check_key srv api_key model_name)) as [[[key v] reason]|e];
      tauto.
  - destruct (check_all_completed w args keys valid_keys err Hp Hc)
      as (_ & Hv & _). fold futs in Hv.
    intros k Hin. rewrite Hv in Hin. apply in_map_iff in Hin.
    destruct Hin as (f & <- & Hin). apply filter_In in Hin.
    destruct Hin as [Hin _]. apply (Permutation_in f Hp) in Hin.
    rewrite <- (submit_all_keys w (model args) 0 keys). fold futs.
    now apply in_map.
  - destruct (check_all_completed w args keys valid_keys err Hp Hc)
      as (Hf & Hv & _). fold futs in Hf, Hv.
    set (ys := as_completed w futs) in *.
    exists (map fut_key (filter fut_invalid ys)).
    rewrite Hv, <- map_app.
    rewrite <- (submit_all_keys w (model args) 0 keys). fold futs.
    apply Permutation_map.
    eapply Permutation_trans; [|exact Hp]. apply filter_split_perm.
    rewrite Forall_forall in *. intros f Hin.
    apply returned_valid_invalid, Hf.
    eapply Permutation_in; [exact Hp | exact Hin].
Qed.

Lemma key_returned_unchanged_witness :
  match fst (check_key srv_ab key_b flash_lite) with
  | Return (key, _, _) => key = key_b
  | Raise e => srv_ab (probe_request key_b flash_lite) = Raise e
  end
  /\ incl [key_a; key_a] keys_abc
  /\ exists others, Permutation ([key_a; key_a] ++ others) keys_abc.
Proof.
  apply (key_returned_unchanged w_abc default_args keys_abc [key_a; key_a]
           (snd (check_all w_abc default_args keys_abc))
           srv_ab key_b flash_lite).
  - apply Permutation_sym, Permutation_rev.
  - vm_compute. reflexivity.
Defined.

(** C8. For a non-empty list of valid keys, the [list] format is the keys
    joined by newlines, in their order (["a", "b"] gives "a\nb", and
    splitting the text at the newlines gives the keys back), and the
    [json_array] format is a JSON array of the keys in the same order: a
    JSON reader gives the list back. *)
Theorem valid_keys_formatted (valid_keys : list str) :
  valid_keys <> [] ->
  format_output fmt_list valid_keys = join [10] valid_keys
  /\ format_output fmt_list [u "a"; u "b"] = u "a" ++ [10] ++ u "b"
  /\ (Forall (fun key => ~ In 10 key) valid_keys ->
      split_on 10 (format_output fmt_list valid_keys) = valid_keys)
  /\ format_output fmt_json_array valid_keys = json_dumps_indent2 valid_keys
  /\ format_output fmt_json_array [u "a"; u "b"]
     = u "[" ++ [10] ++ u "  " ++ [dquote] ++ u "a" ++ [dquote] ++ u ","
       ++ [10] ++ u "  " ++ [dquote] ++ u "b" ++ [dquote] ++ [10] ++ u "]"
  /\ (Forall (Forall scalar) valid_keys ->
      json_loads (format_output fmt_json_array valid_keys) = Some valid_keys).
Proof.
  intros Hne. destruct valid_keys as [|k ks]; [contradiction|].
  repeat split.
  - intros H. cbn [format_output]. now apply split_on_join.
  - intros H. cbn [format_output]. now apply json_loads_dumps.
Qed.

Lemma valid_keys_formatted_witness :
  [key_a; nl key_b ++ [0x1F600; 233]] <> []
  /\ split_on 10 (format_output fmt_list [key_a; key_b]) = [key_a; key_b]
  /\ json_loads (format_output fmt_json_array
                   [key_a; nl key_b ++ [0x1F600; 233]])
     = Some [key_a; nl key_b ++ [0x1F600; 233]].
Proof.
  split; [discriminate|].
  destruct (valid_keys_formatted [key_a; key_b]) as (_ & _ & Hs & _);
    [discriminate|].
  destruct (valid_keys_formatted [key_a; nl key_b ++ [0x1F600; 233]])
    as (_ & _ & _ & _ & _ & Hj); [discriminate|].
  split.
  - apply Hs, no_char_in. vm_compute. reflexivity.
  - apply Hj, scalarb_scalar. vm_compute. reflexivity.
Defined.

(** * Further properties *)

(** X1. Every key handed to the checks is a stripped input line: it is not
    empty, not blank, and has no whitespace left at either end. *)
Theorem filter_keys_clean (lines : list str) :
  Forall (fun key =>
            key <> [] /\ blank key = false /\ strip key = key
            /\ exists line, In line lines /\ key = strip line)
         (filter_keys lines).
Proof.
  pose proof (filter_keys_trimmed lines) as H.
  rewrite Forall_forall in *. intros key Hin.
  destruct (H key Hin) as [Hn Ht].
  split; [exact Hn|]. split; [now apply trimmed_not_blank|].
  split; [now apply trimmed_strip|].
  unfold filter_keys in Hin. apply in_map_iff in Hin.
  destruct Hin as (line & <- & Hl). apply filter_In in Hl.
  exists line. split; [tauto | reflexivity].
Qed.

(** X2. Whitespace around a key in its line does not matter: lines made
    of stripped, non-empty keys with any whitespace before and after give
    back exactly the keys, in order. *)
Theorem padding_ignored (ws1 ws2 : str) (keys : list str) :
  forallb isspace ws1 = true -> forallb isspace ws2 = true ->
  Forall (fun key => key <> [] /\ strip key = key) keys ->
  filter_keys (map (fun key => ws1 ++ key ++ ws2) keys) = keys.
Proof.
  intros H1 H2 H. apply filter_keys_padded; try assumption.
  eapply Forall_impl; [|exact H]. intros k [Hn Hs].
  split; [exact Hn|]. rewrite <- Hs. apply strip_is_trimmed.
Qed.

Lemma padding_ignored_witness :
  filter_keys (map (fun key => [9; 32] ++ key ++ [32; 13; 10]) [key_a; key_b])
  = [key_a; key_b].
Proof.
  apply (padding_ignored [9; 32] [32; 13; 10] [key_a; key_b]).
  - reflexivity.
  - reflexivity.
  - repeat constructor; try discriminate; vm_compute; reflexivity.
Defined.

(** X3. Filtering is idempotent, and the keys written one per line are read
    back unchanged: the list output of one run is a valid input of
    another. *)
Theorem filter_keys_idempotent (lines : list str) :
  filter_keys (filter_keys lines) = filter_keys lines
  /\ filter_keys (map (fun key => key ++ [10]) (filter_keys lines))
     = filter_keys lines.
Proof.
  pose proof (filter_keys_trimmed lines) as H. split.
  - rewrite <- (filter_keys_padded [] [] (filter_keys lines)) at 2;
      try reflexivity; [|exact H].
    f_equal. rewrite <- (map_id (filter_keys lines)) at 1.
    apply map_ext. intros k. now rewrite app_nil_r.
  - apply (filter_keys_padded [] [10]); [reflexivity | reflexivity | exact H].
Qed.

(** X4. The lines dropped are exactly the blank ones: the number of keys
    is the number of non-blank lines, and no key is left exactly when every
    line is blank. *)
Theorem blank_lines_dropped (lines : list str) :
  List.length (filter_keys lines)
  = List.length (filter (fun line => negb (blank line)) lines)
  /\ (filter_keys lines = [] <-> forallb blank lines = true).
Proof.
  split.
  - induction lines as [|line lines IH]; [reflexivity|].
    rewrite filter_keys_cons. cbn [filter].
    destruct (blank line); cbn [negb List.length]; now rewrite IH.
  - induction lines as [|line lines IH]; [now split|].
    rewrite filter_keys_cons. cbn [forallb].
    destruct (blank line); cbn [andb]; [exact IH|].
    split; discriminate.
Qed.

(** X5. [check_key] reports a key as valid exactly when the key is not
    blank and its probe got a response; the reason is then "Valid". In
    every other returned tuple the flag is [False]. *)
Theorem valid_iff_responded (srv : service) (api_key model_name : str)
    (key reason : str) (is_valid : bool) :
  fst (check_key srv api_key model_name) = Return (key, is_valid, reason) ->
  (is_valid = true <->
   blank api_key = false
   /\ srv (probe_request api_key model_name) = Return Response)
  /\ (is_valid = true -> reason = u "Valid").
Proof.
  unfold check_key. rewrite guard_blank.
  destruct (blank api_key).
  { intros H. injection H as _ <- _. split; [|discriminate].
    split; [discriminate | intros [? _]; discriminate]. }
  cbn [fst]. destruct (srv (probe_request api_key model_name)) as [[]|e].
  { intros H. injection H as _ <- <-. repeat split. }
  unfold try_except. cbn [except].
  repeat match goal with
         | |- context [if ?b then _ else _] => destruct b
         end;
    intros H; try discriminate H; injection H as _ <- _;
    (split; [split; [discriminate | intros [_ ?]; discriminate]
            | discriminate]).
Qed.

Lemma valid_iff_responded_witness :
  (true = true <->
   blank key_a = false
   /\ srv_ab (probe_request key_a flash_lite) = Return Response)
  /\ (true = true -> u "Valid" = u "Valid").
Proof.
  apply (valid_iff_responded srv_ab key_a flash_lite key_a (u "Valid") true).
  vm_compute. reflexivity.
Defined.

(** X6. In a run that reaches the checks every key is probed: each task
    sends exactly one request, carrying its key and the model, so the
    requests of the run are one per key in submission order; no task ends
    with the "Key is empty" outcome. This holds whether or not the loop
    ends normally. *)
Theorem one_request_per_key (w : World) (args : Args) (keys : list str) :
  read_input w args = Keys keys ->
  (0 < workers args)%Z ->
  List.concat (map fut_sent (submitted (main w args)))
  = map (fun key => probe_request key (model args)) keys
  /\ Forall (fun f => List.length (fut_sent f) = 1%nat
                      /\ forall key v,
                           fut_outcome f <> Return (key, v, u "Key is empty"))
            (submitted (main w args)).
Proof.
  intros Hr Hw. destruct (main_submitted w args keys Hr Hw) as [-> _].
  assert (Hb : Forall (fun key => blank key = false) keys).
  { eapply Forall_impl; [|apply (read_input_keys_trimmed w args keys Hr)].
    intros k [Hn Ht]. now apply trimmed_not_blank. }
  split.
  - rewrite submit_all_sent by exact Hb.
    clear. induction keys as [|k keys IH]; [reflexivity|].
    cbn [map List.concat app]. now rewrite IH.
  - apply Forall_forall. intros f Hin.
    pose proof (submit_all_outcome w (model args) 0 keys) as Ho.
    rewrite Forall_forall in Ho. destruct (Ho f Hin) as [Hout Hsent].
    assert (Hk : blank (fut_key f) = false).
    { rewrite Forall_forall in Hb. apply Hb.
      rewrite <- (submit_all_keys w (model args) 0 keys). now apply in_map. }
    split.
    + now rewrite Hsent, check_key_sends.
    + intros key v E.
      pose proof (check_key_cases (srv w (fut_index f)) (fut_key f)
                    (model args)) as C.
      cbv zeta in C. rewrite <- Hout, E in C.
      destruct C as (_ & _ & Hc & _).
      unfold classify in Hc. rewrite Hk in Hc.
      change (codes_of (u "Key is empty")) with [EMPTY] in Hc.
      destruct (srv w (fut_index f) (probe_request (fut_key f) (model args)))
        as [[]|e]; [discriminate|].
      repeat match type of Hc with
             | context [if ?b then _ else _] => destruct b
             end; discriminate.
Qed.

Lemma one_request_per_key_witness :
  List.concat (map fut_sent (submitted (main w_abc default_args)))
  = map (fun key => probe_request key (model default_args)) keys_abc
  /\ Forall (fun f => List.length (fut_sent f) = 1%nat
                      /\ forall key v,
                           fut_outcome f <> Return (key, v, u "Key is empty"))
            (submitted (main w_abc default_args)).
Proof.
  apply (one_request_per_key w_abc default_args keys_abc).
  - vm_compute. reflexivity.
  - reflexivity.
Defined.

(** X7. With a worker count of zero or less the run prints its banner and
    ends with the [ValueError] of the pool: nothing is submitted, printed
    or written. *)
Theorem no_workers_no_run (w : World) (args : Args) (keys : list str) :
  read_input w args = Keys keys ->
  (workers args <= 0)%Z ->
  main w args
  = {| stdout := []; stderr := [banner keys args]; written := [];
       executors := []; submitted := []; status := Uncaught ValueError |}.
Proof.
  intros Hr Hw. unfold main. rewrite Hr.
  apply Z.leb_le in Hw. now rewrite Hw.
Qed.

Lemma no_workers_no_run_witness :
  main w_abc args_no_workers
  = {| stdout := []; stderr := [banner keys_abc args_no_workers];
       written := []; executors := []; submitted := [];
       status := Uncaught ValueError |}.
Proof.
  apply (no_workers_no_run w_abc args_no_workers keys_abc).
  - vm_compute. reflexivity.
  - discriminate.
Defined.

(** X8. When the input file does not exist the run ends with status 1 and
    one line naming the path on the diagnostic stream; standard input is
    not read, no pool is created and nothing is printed or written. *)
Theorem missing_input_file (w : World) (args : Args) (path : str) :
  given (input_file args) = Some path ->
  open_r w path = ReadFileNotFound ->
  main w args
  = {| stdout := [];
       stderr := [u "错误: 输入文件 '" ++ path ++ u "' 未找到。"];
       written := []; executors := []; submitted := []; status := Exit 1 |}.
Proof.
  intros Hg Ho. unfold main, read_input. now rewrite Hg, Ho.
Qed.

Lemma missing_input_file_witness :
  main w_file args_missing
  = {| stdout := [];
       stderr := [u "错误: 输入文件 '" ++ u "nokeys.txt" ++ u "' 未找到。"];
       written := []; executors := []; submitted := []; status := Exit 1 |}.
Proof.
  apply (missing_input_file w_file args_missing (u "nokeys.txt")).
  - vm_compute. reflexivity.
  - vm_compute. reflexivity.
Defined.



(** X10. One task that raises costs the whole output: when some submitted
    task ends with an exception, the run ends with the exception of such a
    task, and no key is printed or written, however many were valid. *)
Theorem raising_task_loses_output (w : World) (args : Args)
    (keys : list str) (f : future) (e : exc) :
  let futs := submit_all w (model args) 0 keys in
  Permutation (as_completed w futs) futs ->
  read_input w args = Keys keys ->
  (0 < workers args)%Z ->
  In f futs -> fut_outcome f = Raise e ->
  (exists g x, In g futs /\ fut_outcome g = Raise x
               /\ status (main w args) = Uncaught x)
  /\ stdout (main w args) = []
  /\ written (main w args) = [].
Proof.
  intros futs Hp Hr Hw Hin Hf.
  destruct (check_all w args keys) as [[v|x] err] eqn:Hc.
  - destruct (check_all_completed w args keys v err Hp Hc) as (Hret & _).
    fold futs in Hret. rewrite Forall_forall in Hret.
    destruct (Hret f Hin) as [t Ht]. congruence.
  - destruct (main_raised w args keys err x Hr Hw Hc) as (Hs & Ho & Hwr).
    split; [|split; assumption].
    unfold check_all in Hc. fold futs in Hc.
    apply collect_Raise_in in Hc. destruct Hc as (g & Hg & Hx).
    exists g, x. split; [|split; assumption].
    eapply Permutation_in; [exact Hp | exact Hg].
Qed.

Lemma raising_task_loses_output_witness :
  (exists g x, In g (submit_all w_exit (model default_args) 0 keys_3)
               /\ fut_outcome g = Raise x
               /\ status (main w_exit default_args) = Uncaught x)
  /\ stdout (main w_exit default_args) = []
  /\ written (main w_exit default_args) = [].
Proof.
  apply (raising_task_loses_output w_exit default_args keys_3
           (nth 1 (submit_all w_exit (model default_args) 0 keys_3)
                (Build_future 0 [] (Raise SystemExit) []))
           SystemExit).
  - apply Permutation_sym, Permutation_rev.
  - vm_compute. reflexivity.
  - reflexivity.
  - right. left. reflexivity.
  - vm_compute. reflexivity.
Defined.

(** X11. The order in which the tasks complete changes neither whether
    the loop ends normally nor what it collects: two runs on the same keys
    against the same service answers both end normally or both raise, and
    when they end normally their valid keys, and their diagnostic lines,
    are the same up to order. *)
Theorem completion_order_irrelevant (w1 w2 : World) (args : Args)
    (keys : list str) :
  (forall i rq, srv w1 i rq = srv w2 i rq) ->
  Permutation (as_completed w1 (submit_all w1 (model args) 0 keys))
              (submit_all w1 (model args) 0 keys) ->
  Permutation (as_completed w2 (submit_all w2 (model args) 0 keys))
              (submit_all w2 (model args) 0 keys) ->
  match check_all w1 args keys, check_all w2 args keys with
  | (Return v1, err1), (Return v2, err2) =>
    Permutation v1 v2 /\ Permutation err1 err2
  | (Raise _, _), (Raise _, _) => True
  | _, _ => False
  end.
Proof.
  intros Hs Hp1 Hp2.
  pose proof (submit_all_ext w1 w2 (model args) 0 keys Hs) as E.
  rewrite <- E in Hp2.
  set (futs := submit_all w1 (model args) 0 keys) in *.
  assert (H12 : Permutation (as_completed w1 futs) (as_completed w2 futs)).
  { eapply Permutation_trans; [exact Hp1 | apply Permutation_sym, Hp2]. }
  unfold check_all. rewrite <- E. fold futs.
  destruct (collect (as_completed w1 futs) [] [banner keys args])
    as [[v1|x1] err1] eqn:C1;
    destruct (collect (as_completed w2 futs) [] [banner keys args])
      as [[v2|x2] err2] eqn:C2; try exact I.
  - pose proof (collect_Return _ _ _ _ _ C1) as R1.
    pose proof (collect_Return _ _ _ _ _ C2) as R2.
    rewrite (collect_returned _ _ _ R1) in C1.
    rewrite (collect_returned _ _ _ R2) in C2.
    injection C1 as <- <-. injection C2 as <- <-. split.
    + cbn [app]. now apply Permutation_map, filter_perm.
    + cbn [app]. apply perm_skip. now apply Permutation_map, filter_perm.
  - pose proof (collect_Return _ _ _ _ _ C1) as R1.
    pose proof (returned_perm _ _ H12 R1) as R2.
    rewrite (collect_returned _ _ _ R2) in C2. discriminate.
  - pose proof (collect_Return _ _ _ _ _ C2) as R2.
    pose proof (returned_perm _ _ (Permutation_sym H12) R2) as R1.
    rewrite (collect_returned _ _ _ R1) in C1. discriminate.
Qed.

Lemma completion_order_irrelevant_witness :
  match check_all w_abc default_args keys_abc,
        check_all w_file default_args keys_abc with
  | (Return v1, err1), (Return v2, err2) =>
    Permutation v1 v2 /\ Permutation err1 err2
  | (Raise _, _), (Raise _, _) => True
  | _, _ => False
  end.
Proof.
  apply (completion_order_irrelevant w_abc w_file default_args keys_abc).
  - reflexivity.
  - apply Permutation_sym, Permutation_rev.
  - apply Permutation_refl.
Defined.

(** X12. When the loop ends normally with at least one valid key and the
    output file can be written, nothing goes to standard output; the file
    receives, in list format, every valid key followed by a newline and, in
    JSON format, the array without a final newline; the diagnostic stream
    ends with the summary and the line naming the file. *)
Theorem keys_saved_to_file (w : World) (args : Args)
    (keys valid_keys err : list str) (path : str) :
  let futs := submit_all w (model args) 0 keys in
  Permutation (as_completed w futs) futs ->
  read_input w args = Keys keys ->
  (0 < workers args)%Z ->
  check_all w args keys = (Return valid_keys, err) ->
  valid_keys <> [] ->
  given (output_file args) = Some path ->
  open_w w path = None ->
  stdout (main w args) = []
  /\ stderr (main w args)
     = err ++ [summary valid_keys; u "结果已保存到: " ++ path]
  /\ exists strings,
       written (main w args) = [(path, strings)]
       /\ List.concat strings
          = match format args with
            | fmt_list => flat_map (fun key => key ++ [10]) valid_keys
            | fmt_json_array => json_dumps_indent2 valid_keys
            end.
Proof.
  intros futs Hp Hr Hw Hc Hne Hg Ho.
  rewrite (main_completed w args keys valid_keys err Hr Hw Hc).
  cbn [stdout stderr written].
  destruct valid_keys as [|k ks]; [contradiction|].
  assert (Hk : k <> []).
  { destruct (check_all_completed w args keys (k :: ks) err Hp Hc)
      as (_ & Hv & _). fold futs in Hv.
    assert (Hin : In k keys).
    { rewrite <- (submit_all_keys w (model args) 0 keys). fold futs.
      assert (Hi : In k (k :: ks)) by now left.
      rewrite Hv in Hi. apply in_map_iff in Hi.
      destruct Hi as (f & <- & Hf). apply filter_In in Hf.
      apply in_map. eapply Permutation_in; [exact Hp | tauto]. }
    pose proof (read_input_keys_trimmed w args keys Hr) as Ht.
    rewrite Forall_forall in Ht. now destruct (Ht k Hin). }
  unfold write_output.
  rewrite (format_output_truthy (format args) k ks Hk), Hg, Ho.
  cbn [fst snd]. split; [reflexivity|]. split; [reflexivity|].
  eexists. split; [reflexivity|].
  destruct (format args); cbn [format_output List.concat].
  - rewrite app_nil_r. apply join_lines.
  - now rewrite app_nil_r.
Qed.

Lemma keys_saved_to_file_witness :
  stdout (main w_file args_saved) = []
  /\ stderr (main w_file args_saved)
     = snd (check_all w_file args_saved keys_file)
       ++ [summary [key_a; key_a]; u "结果已保存到: " ++ u "valid.txt"]
  /\ exists strings,
       written (main w_file args_saved) = [(u "valid.txt", strings)]
       /\ List.concat strings
          = match format args_saved with
            | fmt_list => flat_map (fun key => key ++ [10]) [key_a; key_a]
            | fmt_json_array => json_dumps_indent2 [key_a; key_a]
            end.
Proof.
  apply (keys_saved_to_file w_file args_saved keys_file [key_a; key_a]
           (snd (check_all w_file args_saved keys_file)) (u "valid.txt")).
  - apply Permutation_refl.
  - vm_compute. reflexivity.
  - reflexivity.
  - vm_compute. reflexivity.
  - discriminate.
  - vm_compute. reflexivity.
  - vm_compute. reflexivity.
Defined.

(** X13. A failure to write the output file does not fail the run: the
    error is reported after the summary, the status stays 0, and the valid
    keys are neither written nor printed on standard output. *)
Theorem unwritable_output_reported (w : World) (args : Args)
    (keys valid_keys err : list str) (path msg : str) :
  read_input w args = Keys keys ->
  (0 < workers args)%Z ->
  check_all w args keys = (Return valid_keys, err) ->
  truthy (format_output (format args) valid_keys) = true ->
  given (output_file args) = Some path ->
  open_w w path = Some msg ->
  main w args
  = {| stdout := [];
       stderr := err ++ [summary valid_keys;
                         u "错误: 无法写入文件 '" ++ path ++ u "': " ++ msg];
       written := [];
       executors := [workers args];
       submitted := submit_all w (model args) 0 keys;
       status := Exit 0 |}.
Proof.
  intros Hr Hw Hc Ht Hg Ho.
  rewrite (main_completed w args keys valid_keys err Hr Hw Hc).
  unfold write_output. rewrite Ht, Hg, Ho. reflexivity.
Qed.

Lemma unwritable_output_reported_witness :
  main w_file args_unwritable
  = {| stdout := [];
       stderr := snd (check_all w_file args_unwritable keys_file)
                 ++ [summary [key_a; key_a];
                     u "错误: 无法写入文件 '" ++ u "/proc/valid.txt" ++ u "': "
                     ++ u "[Errno 13] Permission denied"];
       written := [];
       executors := [workers args_unwritable];
       submitted := submit_all w_file (model args_unwritable) 0 keys_file;
       status := Exit 0 |}.
Proof.
  apply (unwritable_output_reported w_file args_unwritable keys_file
           [key_a; key_a] (snd (check_all w_file args_unwritable keys_file))
           (u "/proc/valid.txt") (u "[Errno 13] Permission denied")).
  - vm_compute. reflexivity.
  - reflexivity.
  - vm_compute. reflexivity.
  - vm_compute. reflexivity.
  - vm_compute. reflexivity.
  - vm_compute. reflexivity.
Defined.

(** X14. When no key is valid the run ends with status 0 and produces no
    data at all: nothing on standard output and, even with an output file
    requested, no file is opened or written; the diagnostic stream ends
    with the sentence that no usable key was found. *)
Theorem no_valid_key_no_output (w : World) (args : Args)
    (keys err : list str) :
  read_input w args = Keys keys ->
  (0 < workers args)%Z ->
  check_all w args keys = (Return [], err) ->
  main w args
  = {| stdout := [];
       stderr := err ++ [10 :: u "检查完成，未找到可用的 Key。"];
       written := [];
       executors := [workers args];
       submitted := submit_all w (model args) 0 keys;
       status := Exit 0 |}.
Proof.
  intros Hr Hw Hc.
  rewrite (main_completed w args keys [] err Hr Hw Hc). reflexivity.
Qed.

Lemma no_valid_key_no_output_witness :
  main w_none args_piped_saved
  = {| stdout := [];
       stderr := snd (check_all w_none args_piped_saved keys_3)
                 ++ [10 :: u "检查完成，未找到可用的 Key。"];
       written := [];
       executors := [workers args_piped_saved];
       submitted := submit_all w_none (model args_piped_saved) 0 keys_3;
       status := Exit 0 |}.
Proof.
  apply (no_valid_key_no_output w_none args_piped_saved keys_3
           (snd (check_all w_none args_piped_saved keys_3))).
  - vm_compute. reflexivity.
  - reflexivity.
  - vm_compute. reflexivity.
Defined.

(** X15. End to end in JSON format: a run without an output file that
    ends normally with valid keys prints one text on standard output, and
    a JSON reader turns that text back into the valid keys, which are
    input keys. *)
Theorem json_stdout_reads_back (w : World) (args : Args)
    (keys valid_keys err : list str) :
  let futs := submit_all w (model args) 0 keys in
  Permutation (as_completed w futs) futs ->
  read_input w args = Keys keys ->
  (0 < workers args)%Z ->
  check_all w args keys = (Return valid_keys, err) ->
  valid_keys <> [] ->
  format args = fmt_json_array ->
  given (output_file args) = None ->
  Forall (Forall scalar) keys ->
  exists text,
    stdout (main w args) = [text]
    /\ json_loads text = Some valid_keys
    /\ incl valid_keys keys
    /\ written (main w args) = [].
Proof.
  intros futs Hp Hr Hw Hc Hne Hf Hg Hs.
  assert (Hi : incl valid_keys keys).
  { destruct (check_all_completed w args keys valid_keys err Hp Hc)
      as (_ & Hv & _). fold futs in Hv.
    intros k Hin. rewrite Hv in Hin. apply in_map_iff in Hin.
    destruct Hin as (f & <- & Hin). apply filter_In in Hin.
    destruct Hin as [Hin _]. apply (Permutation_in f Hp) in Hin.
    rewrite <- (submit_all_keys w (model args) 0 keys). fold futs.
    now apply in_map. }
  rewrite (main_completed w args keys valid_keys err Hr Hw Hc).
  cbn [stdout written]. rewrite Hf.
  destruct valid_keys as [|k ks]; [contradiction|].
  assert (T : truthy (format_output fmt_json_array (k :: ks)) = true)
    by (cbn [format_output]; now rewrite json_dumps_cons).
  unfold write_output. rewrite T, Hg. cbn [fst snd format_output].
  exists (json_dumps_indent2 (k :: ks)). split; [reflexivity|].
  split; [|split; [exact Hi | reflexivity]].
  apply json_loads_dumps. rewrite Forall_forall in *.
  intros x Hx. apply Hs, Hi, Hx.
Qed.

Lemma json_stdout_reads_back_witness :
  exists text,
    stdout (main w_abc args_json) = [text]
    /\ json_loads text = Some [key_a; key_a]
    /\ incl [key_a; key_a] keys_abc
    /\ written (main w_abc args_json) = [].
Proof.
  apply (json_stdout_reads_back w_abc args_json keys_abc [key_a; key_a]
           (snd (check_all w_abc args_json keys_abc))).
  - apply Permutation_sym, Permutation_rev.
  - vm_compute. reflexivity.
  - reflexivity.
  - vm_compute. reflexivity.
  - discriminate.
  - reflexivity.
  - reflexivity.
  - apply scalarb_scalar. vm_compute. reflexivity.
Defined.

(** X16. The JSON text is plain ASCII whatever the keys hold: every
    character of it is a newline or a printable ASCII character, all others
    being written as escapes. *)
Theorem json_output_is_ascii (valid_keys : list str) :
  Forall json_ascii (json_dumps_indent2 valid_keys).
Proof.
  destruct valid_keys as [|k ks].
  - change (json_dumps_indent2 []) with [91; 93].
    repeat (apply Forall_cons; [unfold json_ascii; lia|]). apply Forall_nil.
  - change (json_dumps_indent2 (k :: ks))
      with ([91; 10; 32; 32]
            ++ join [44; 10; 32; 32] (map encode_basestring_ascii (k :: ks))
            ++ [10; 93]).
    apply Forall_app. split.
    { repeat (apply Forall_cons; [unfold json_ascii; lia|]). apply Forall_nil. }
    apply Forall_app. split.
    2:{ repeat (apply Forall_cons; [unfold json_ascii; lia|]).
        apply Forall_nil. }
    cbn [map]. rewrite join_cons. apply Forall_app. split;
      [apply encode_ascii|].
    induction ks as [|y ks IH]; [constructor|].
    cbn [map flat_map]. apply Forall_app. split; [|exact IH].
    apply Forall_app. split; [|apply encode_ascii].
    repeat (apply Forall_cons; [unfold json_ascii; lia|]). apply Forall_nil.
Qed.

(** X17. The loop stops at the first task, in completion order, that
    raised: the failure lines of the invalid tasks that completed before it
    stay on the diagnostic stream, the tasks that complete after it are not
    looked at, and the run ends with that exception without any summary. *)
Theorem loop_stops_at_first_raise (w : World) (args : Args)
    (keys : list str) (before after : list future) (f : future) (e : exc) :
  read_input w args = Keys keys ->
  (0 < workers args)%Z ->
  as_completed w (submit_all w (model args) 0 keys) = before ++ f :: after ->
  Forall returned before ->
  fut_outcome f = Raise e ->
  status (main w args) = Uncaught e
  /\ stderr (main w args)
     = banner keys args :: map fut_line (filter fut_invalid before).
Proof.
  intros Hr Hw Hy Hb Hf.
  assert (Hc : check_all w args keys
               = (Raise e, banner keys args
                           :: map fut_line (filter fut_invalid before))).
  { unfold check_all. rewrite Hy, collect_app_returned by exact Hb.
    cbn [collect]. now rewrite Hf. }
  unfold main. rewrite Hr. apply Z.leb_gt in Hw. rewrite Hw, Hc.
  split; reflexivity.
Qed.

Lemma loop_stops_at_first_raise_witness :
  status (main w_exit default_args) = Uncaught SystemExit
  /\ stderr (main w_exit default_args)
     = banner keys_3 default_args
       :: map fut_line
            (filter fut_invalid
               [nth 2 (submit_all w_exit (model default_args) 0 keys_3)
                    (Build_future 0 [] (Raise SystemExit) [])]).
Proof.
  apply (loop_stops_at_first_raise w_exit default_args keys_3
           [nth 2 (submit_all w_exit (model default_args) 0 keys_3)
                (Build_future 0 [] (Raise SystemExit) [])]
           [nth 0 (submit_all w_exit (model default_args) 0 keys_3)
                (Build_future 0 [] (Raise SystemExit) [])]
           (nth 1 (submit_all w_exit (model default_args) 0 keys_3)
                (Build_future 0 [] (Raise SystemExit) []))
           SystemExit).
  - vm_compute. reflexivity.
  - reflexivity.
  - reflexivity.
  - constructor; [|constructor]. eexists. vm_compute. reflexivity.
  - vm_compute. reflexivity.
Defined.

(** X18. Without an input file and with a terminal on standard input the
    run prints the help text on standard output and one line on the
    diagnostic stream, and ends with status 1 without reading anything. *)
Theorem terminal_without_input (w : World) (args : Args) :
  given (input_file args) = None ->
  stdin_isatty w = true ->
  main w args
  = {| stdout := [help_text w];
       stderr := [10 :: u "错误: 请通过 -i 参数提供输入文件，或通过管道提供输入。"];
       written := []; executors := []; submitted := []; status := Exit 1 |}.
Proof.
  intros Hg Ht. unfold main, read_input. now rewrite Hg, Ht.
Qed.

Lemma terminal_without_input_witness :
  main w_file default_args
  = {| stdout := [help_text w_file];
       stderr := [10 :: u "错误: 请通过 -i 参数提供输入文件，或通过管道提供输入。"];
       written := []; executors := []; submitted := []; status := Exit 1 |}.
Proof.
  apply (terminal_without_input w_file default_args).
  - reflexivity.
  - reflexivity.
Defined.
